(** * nod.cc: toll ledger, shallow embedding

    The program reads lines from standard input.  A crossing record
    [<plate> <road> <marker>] is paired with the previous open record of the
    same vehicle; a command line [? [arg]] prints accumulated totals; anything
    else is reported on the error stream.

    Conventions of the embedding:
    - [int] is a 32-bit two's-complement integer, carried as a [Z] whose
      arithmetic wraps (the result a two's-complement machine gives; the
      language itself leaves signed overflow undefined);
    - [std::string] is a list of characters;
    - [std::map<K,V>] is the list of its entries in iteration order, which is
      the ascending order of the keys under [operator<];
    - [std::cout] and [std::cerr] are lists of lines, one element for each
      [std::endl];
    - [std::cin] is consumed through [std::getline], one line at a time. *)

From Stdlib Require Import ZArith Ascii String DecimalString Bool Lia.
From Stdlib Require Import DecimalFacts DecimalPos DecimalN.
From Stdlib Require Import List Sorting.Sorted.
Import ListNotations.
Local Open Scope char_scope.
Local Open Scope Z_scope.

(** ** Machine integers *)

Definition INT_MAX : Z := 2147483647.
Definition INT_MIN : Z := -2147483648.

Definition in_int (z : Z) : Prop := INT_MIN <= z <= INT_MAX.

(** Reduction of a mathematical integer to its 32-bit signed representative. *)
Definition wrap_int (z : Z) : Z := (z - INT_MIN) mod 2 ^ 32 + INT_MIN.

Definition int_add (a b : Z) : Z := wrap_int (a + b).
Definition int_sub (a b : Z) : Z := wrap_int (a - b).
Definition int_mul (a b : Z) : Z := wrap_int (a * b).
(** [std::abs] on [int]; [INT_MIN] has no positive counterpart. *)
Definition int_abs (a : Z) : Z := wrap_int (Z.abs a).

(** ** Strings and character classes *)

Definition std_string : Type := list ascii.

(** A string literal. *)
Definition lit (s : string) : std_string := list_ascii_of_string s.

(** [std::isspace] in the classic locale: space, \t, \n, \v, \f, \r. *)
Definition isspace (c : ascii) : bool :=
  let n := N_of_ascii c in ((n =? 32) || ((9 <=? n) && (n <=? 13)))%N.

Definition char_in (lo hi c : ascii) : bool :=
  ((N_of_ascii lo <=? N_of_ascii c) && (N_of_ascii c <=? N_of_ascii hi))%N.

(** [\d] *)
Definition isdigit (c : ascii) : bool := char_in "0" "9" c.
(** [[1-9]] *)
Definition isdigit19 (c : ascii) : bool := char_in "1" "9" c.
(** [[a-zA-Z0-9]] *)
Definition is_plate_char (c : ascii) : bool :=
  char_in "a" "z" c || char_in "A" "Z" c || char_in "0" "9" c.
(** The single character [c]. *)
Definition is_char (c x : ascii) : bool :=
  if ascii_dec x c then true else false.
(** [(A|S)] *)
Definition is_road_type (c : ascii) : bool := is_char "A" c || is_char "S" c.

(** [c - '0'] *)
Definition digit_value (c : ascii) : Z := Z.of_N (N_of_ascii c) - 48.

(** Value of a string of decimal digits, most significant first. *)
Definition decimal_value (s : std_string) : Z :=
  fold_left (fun acc c => 10 * acc + digit_value c) s 0.

(** [std::stoul] on the at most three digits the road pattern lets through. *)
Definition stoul (s : std_string) : Z := decimal_value s.

(** [std::stoi] on a string of digits: the value, or [None] for the
    [std::out_of_range] it throws when the value does not fit an [int]. *)
Definition stoi (s : std_string) : option Z :=
  let n := decimal_value s in
  if n <=? INT_MAX then Some n else None.

(** Longest prefix whose characters satisfy [p], and the rest. *)
Fixpoint span (p : ascii -> bool) (s : std_string) : std_string * std_string :=
  match s with
  | [] => ([], [])
  | c :: s' =>
      if p c then let (a, b) := span p s' in (c :: a, b) else ([], s)
  end.

Fixpoint drop_while (p : ascii -> bool) (s : std_string) : std_string :=
  match s with
  | [] => []
  | c :: s' => if p c then drop_while p s' else s
  end.

(** [operator<<] on an [int]. *)
Definition show_int (z : Z) : std_string :=
  list_ascii_of_string (NilZero.string_of_int (Z.to_int z)).

(** ** Ordered keys and [std::map] *)

(** Three-way comparison induced by [operator<] on a key type. *)
Class KeyOrder (K : Type) := key_cmp : K -> K -> comparison.

(** [char]: by character code (the road types are ASCII letters, for which
    signed and unsigned [char] agree). *)
#[global] Instance ascii_order : KeyOrder ascii := Ascii.compare.

(** [std::string]: lexicographic on unsigned character codes. *)
Fixpoint string_cmp (a b : std_string) : comparison :=
  match a, b with
  | [], [] => Eq
  | [], _ :: _ => Lt
  | _ :: _, [] => Gt
  | x :: a', y :: b' =>
      match Ascii.compare x y with
      | Eq => string_cmp a' b'
      | c => c
      end
  end.

#[global] Instance string_order : KeyOrder std_string := string_cmp.

Section std_map.
Context {K V : Type} `{KeyOrder K}.

Definition std_map : Type := list (K * V).

(** [m.find(k)]: the entry, [None] for [m.end()]; [m.count(k)] is
    nonzero exactly when there is an entry. *)
Fixpoint map_find (k : K) (m : std_map) : option (K * V) :=
  match m with
  | [] => None
  | (k', v) :: m' =>
      match key_cmp k k' with
      | Eq => Some (k', v)
      | Lt => None
      | Gt => map_find k m'
      end
  end.

(** The value [m[k]] reads: the stored one, or a value-initialised one. *)
Definition map_get (dflt : V) (k : K) (m : std_map) : V :=
  match map_find k m with Some (_, v) => v | None => dflt end.

(** [m[k] = v] *)
Fixpoint map_set (k : K) (v : V) (m : std_map) : std_map :=
  match m with
  | [] => [(k, v)]
  | (k', v') :: m' =>
      match key_cmp k k' with
      | Eq => (k', v) :: m'
      | Lt => (k, v) :: m
      | Gt => (k', v') :: map_set k v m'
      end
  end.

(** [m.erase(m.find(k))] for a key that is present. *)
Fixpoint map_erase (k : K) (m : std_map) : std_map :=
  match m with
  | [] => []
  | (k', v') :: m' =>
      match key_cmp k k' with
      | Eq => m'
      | Lt => m
      | Gt => (k', v') :: map_erase k m'
      end
  end.

Definition map_keys (m : std_map) : list K := map fst m.
End std_map.

Arguments std_map : clear implicits.

(** ** namespace road *)

Definition road_type_t : Type := ascii.
Definition road_num_t : Type := Z.
(** [std::tuple<road_num_t, road_type_t>]: number first, type second. *)
Definition road_t : Type := (road_num_t * road_type_t)%type.
Definition distance_t : Type := Z.

Definition road_eq_dec : forall a b : road_t, {a = b} + {a <> b}.
Proof. decide equality; [apply ascii_dec | apply Z.eq_dec]. Defined.

(** Tuple comparison: the number decides, the type breaks ties. *)
Definition road_cmp (a b : road_t) : comparison :=
  match Z.compare (fst a) (fst b) with
  | Eq => Ascii.compare (snd a) (snd b)
  | c => c
  end.

#[global] Instance road_order : KeyOrder road_t := road_cmp.

(** The pattern "^(A|S)([1-9]\d{0,2})$": the two groups of a match. *)
Definition road_regex (s : std_string) : option (std_string * std_string) :=
  match s with
  | t :: d :: ds =>
      if is_road_type t && isdigit19 d && (length ds <=? 2)%nat
         && forallb isdigit ds
      then Some ([t], d :: ds)
      else None
  | _ => None
  end.

Definition parse_road (road_str : std_string) : option road_t :=
  match road_regex road_str with
  | Some (g1, g2) => Some (stoul g2, hd "000" g1)
  | None => None
  end.

(** [0|[1-9]\d*], on a run of digits. *)
Definition whole_part_ok (junction : std_string) : bool :=
  match junction with
  | [] => false
  | c :: ds =>
      (is_char "0" c && match ds with [] => true | _ :: _ => false end)
      || isdigit19 c
  end.

(** The pattern [^(J),(\d)$] with [J = 0|[1-9]\d*]: the digits before the
    comma and the one after it.  [J] is all digits and the comma is not, so
    [J] is the longest run of digits at the start. *)
Definition distance_regex (s : std_string) : option (std_string * ascii) :=
  let (junction, rest) := span isdigit s in
  match rest with
  | [comma; d] =>
      if is_char "," comma && isdigit d && whole_part_ok junction
      then Some (junction, d)
      else None
  | _ => None
  end.

Definition parse_distance (distance_str : std_string) : option distance_t :=
  match distance_regex distance_str with
  | Some (junction, d) =>
      let decimal := digit_value d in
      match stoi junction with
      | Some n => Some (int_add (int_mul n 10) decimal)
      | None => None
      end
  | None => None
  end.

(** ** namespace vehicle *)

Definition plate_no_t : Type := std_string.
(** [std::tuple<plate_no_t>], a tuple of one component. *)
Definition vehicle_t : Type := plate_no_t.

(** The pattern "^[a-zA-Z0-9]{3,11}$". *)
Definition plate_regex (s : std_string) : bool :=
  (3 <=? length s)%nat && (length s <=? 11)%nat && forallb is_plate_char s.

Definition parse_vehicle (plate_no_str : std_string) : option vehicle_t :=
  if plate_regex plate_no_str then Some plate_no_str else None.

(** ** namespace input, types *)

Definition line_no_t : Type := Z.
Definition line_t : Type := std_string.
Definition line_desc_t : Type := (line_no_t * line_t)%type.
Definition line_error_desc_t : Type := line_desc_t.

(** ** namespace toll_charging *)

Definition road_type_data_t : Type := std_map road_type_t distance_t.
Definition vehicles_data_t : Type := std_map vehicle_t road_type_data_t.
Definition roads_data_t : Type := std_map road_t distance_t.

Definition not_finished_entry_t : Type :=
  (road_t * distance_t * line_desc_t)%type.
Definition not_finished_data_t : Type := std_map vehicle_t not_finished_entry_t.

Record state_t : Type := mk_state {
  vehicles_data : vehicles_data_t;
  roads_data : roads_data_t;
  not_finished : not_finished_data_t
}.

(** A default-constructed [state_t]. *)
Definition empty_state : state_t := mk_state [] [] [].

(** [m[k] += d] on a map of distances. *)
Definition add_distance {K} `{KeyOrder K} (k : K) (d : distance_t)
    (m : std_map K distance_t) : std_map K distance_t :=
  map_set k (int_add (map_get 0 k m) d) m.

Definition add_entry (state : state_t) (vehicle : vehicle_t) (road : road_t)
    (distance : distance_t) (line_desc : line_desc_t)
    : option line_error_desc_t * state_t :=
  let open_entry :=
    mk_state (vehicles_data state) (roads_data state)
      (map_set vehicle (road, distance, line_desc) (not_finished state)) in
  match map_find vehicle (not_finished state) with
  | Some (_, (not_finished_road, start_distance, paired_line)) =>
      if road_eq_dec not_finished_road road then
        let traveled_distance := int_abs (int_sub distance start_distance) in
        let by_type := map_get [] vehicle (vehicles_data state) in
        (None,
         mk_state
           (map_set vehicle (add_distance (snd road) traveled_distance by_type)
              (vehicles_data state))
           (add_distance road traveled_distance (roads_data state))
           (map_erase vehicle (not_finished state)))
      else (Some paired_line, open_entry)
  | None => (None, open_entry)
  end.

(** ** namespace input, functions *)

Definition command_desc_t : Type := (option road_t * option vehicle_t)%type.
Definition info_desc_t : Type := (vehicle_t * road_t * distance_t)%type.

Definition nonspace (c : ascii) : bool := negb (isspace c).

(** The pattern [^\s*\?\s*(ARG)\s*$] with [ARG = [^\s]*]: the text of the
    group.  Neighbouring pieces accept disjoint characters, so a match, when
    there is one, is found by taking each piece as long as possible. *)
Definition command_regex (line : line_t) : option std_string :=
  match drop_while isspace line with
  | mark :: after_mark =>
      let (arg, rest) := span nonspace (drop_while isspace after_mark) in
      if is_char "?" mark && forallb isspace rest then Some arg else None
  | [] => None
  end.

Definition parse_command (line : line_t) : option command_desc_t :=
  match command_regex line with
  | Some arg =>
      match arg with
      | [] => Some (None, None)
      | _ =>
          let road := parse_road arg in
          let vehicle := parse_vehicle arg in
          match road, vehicle with
          | None, None => None
          | _, _ => Some (road, vehicle)
          end
      end
  | None => None
  end.

(** [while (ss >> word)]: [word] collects, in reverse, the characters of the
    word being read; whitespace ends it. *)
Fixpoint split_words (word : std_string) (s : std_string) : list std_string :=
  match s with
  | [] => match word with [] => [] | _ => [rev word] end
  | c :: s' =>
      if isspace c
      then match word with
           | [] => split_words [] s'
           | _ => rev word :: split_words [] s'
           end
      else split_words (c :: word) s'
  end.

Definition split_args (str : std_string) : list std_string :=
  split_words [] str.

Definition parse_info (line : line_t) : option info_desc_t :=
  match split_args line with
  | [a0; a1; a2] =>
      match parse_vehicle a0, parse_road a1, parse_distance a2 with
      | Some vehicle, Some road, Some distance =>
          Some (vehicle, road, distance)
      | _, _, _ => None
      end
  | _ => None
  end.

(** [distance / 10 << "," << distance % 10], with the truncating division
    and remainder of the language. *)
Definition show_distance (distance : distance_t) : std_string :=
  show_int (Z.quot distance 10) ++ lit "," ++ show_int (Z.rem distance 10).

Definition show_road (road : road_t) : std_string :=
  [snd road] ++ show_int (fst road).

Definition show_vehicle (vehicle : vehicle_t) : std_string := vehicle.

(** The entries of a [road_type_data_t], separated by single spaces. *)
Fixpoint show_entries (delimiter : std_string) (entries : road_type_data_t)
    : std_string :=
  match entries with
  | [] => []
  | entry :: rest =>
      delimiter ++ [fst entry] ++ lit " " ++ show_distance (snd entry)
      ++ show_entries (lit " ") rest
  end.

Definition show_road_type_data (entries : road_type_data_t) : std_string :=
  show_entries [] entries.

Definition vehicle_line (entry : vehicle_t * road_type_data_t) : std_string :=
  show_vehicle (fst entry) ++ lit " " ++ show_road_type_data (snd entry).

Definition road_line (entry : road_t * distance_t) : std_string :=
  show_road (fst entry) ++ lit " " ++ show_distance (snd entry).

Definition error_text (error_line : line_error_desc_t) : std_string :=
  lit "Error in line " ++ show_int (fst error_line) ++ lit ": "
  ++ snd error_line.

(** *** Effects: the ledger and the two output streams

    A computation runs from a ledger state and yields its result, the state
    it leaves and the lines it wrote to [std::cout] and to [std::cerr]. *)

Record written : Type := mk_written {
  cout : list std_string;
  cerr : list std_string
}.

Definition nothing : written := mk_written [] [].
Definition written_app (a b : written) : written :=
  mk_written (cout a ++ cout b) (cerr a ++ cerr b).

Definition io (A : Type) : Type := state_t -> A * state_t * written.

Definition ret {A} (a : A) : io A := fun s => (a, s, nothing).
Definition bind {A B} (m : io A) (k : A -> io B) : io B :=
  fun s =>
    let '(a, s1, w1) := m s in
    let '(b, s2, w2) := k a s1 in
    (b, s2, written_app w1 w2).

Notation "x <- m ;; k" := (bind m (fun x => k))
  (at level 61, m at next level, right associativity).
Notation "m ;; k" := (bind m (fun _ => k))
  (at level 61, right associativity).

Definition get_state : io state_t := fun s => (s, s, nothing).
Definition on_state {A} (f : state_t -> A * state_t) : io A :=
  fun s => let (a, s') := f s in (a, s', nothing).
Definition cout_line (l : std_string) : io unit :=
  fun s => (tt, s, mk_written [l] []).
Definition cerr_line (l : std_string) : io unit :=
  fun s => (tt, s, mk_written [] [l]).

Fixpoint for_each {A} (l : list A) (body : A -> io unit) : io unit :=
  match l with
  | [] => ret tt
  | x :: l' => body x ;; for_each l' body
  end.

Definition print_error (error_line : line_error_desc_t) : io unit :=
  cerr_line (error_text error_line).

Definition handle_command (line_desc : line_desc_t) : io bool :=
  match parse_command (snd line_desc) with
  | None => ret false
  | Some (cmd_road, cmd_vehicle) =>
      state <- get_state ;;
      (match cmd_road, cmd_vehicle with
       | None, None =>
           for_each (vehicles_data state)
             (fun entry => cout_line (vehicle_line entry)) ;;
           for_each (roads_data state)
             (fun entry => cout_line (road_line entry))
       | _, _ => ret tt
       end) ;;
      (match cmd_vehicle with
       | Some vehicle =>
           match map_find vehicle (vehicles_data state) with
           | Some entry => cout_line (vehicle_line entry)
           | None => ret tt
           end
       | None => ret tt
       end) ;;
      (match cmd_road with
       | Some road =>
           match map_find road (roads_data state) with
           | Some entry => cout_line (road_line entry)
           | None => ret tt
           end
       | None => ret tt
       end) ;;
      ret true
  end.

Definition handle_info (line_desc : line_desc_t) : io bool :=
  match parse_info (snd line_desc) with
  | None => ret false
  | Some (vehicle, road, distance) =>
      error_line <-
        on_state (fun state => add_entry state vehicle road distance line_desc) ;;
      (match error_line with
       | Some e => print_error e
       | None => ret tt
       end) ;;
      ret true
  end.

(** The body of the [while] loop for one line already read. *)
Definition handle_line (line_desc : line_desc_t) : io unit :=
  match snd line_desc with
  | [] => ret tt
  | _ =>
      is_command <- handle_command line_desc ;;
      if is_command : bool then ret tt
      else
        is_info <- handle_info line_desc ;;
        if is_info : bool then ret tt else print_error line_desc
  end.

(** The loop of [handle_all] over the lines [std::getline] delivers. *)
Fixpoint handle_lines (line_no : line_no_t) (lines : list line_t) : io unit :=
  match lines with
  | [] => ret tt
  | line :: rest =>
      let line_no := int_add line_no 1 in
      handle_line (line_no, line) ;;
      handle_lines line_no rest
  end.

(** [std::getline] until the stream is exhausted: a line ends at a newline,
    which is dropped, or at the end of the input when characters remain. *)
Fixpoint getlines (line : std_string) (cin : std_string) : list line_t :=
  match cin with
  | [] => match line with [] => [] | _ => [rev line] end
  | c :: cin' =>
      if ascii_dec c "010" then rev line :: getlines [] cin'
      else getlines (c :: line) cin'
  end.

(** [handle_all]: what the run writes; the ledger does not outlive it. *)
Definition handle_all (cin : std_string) : written :=
  snd (handle_lines 0 (getlines [] cin) empty_state).

(** The ledger, and what has been written, once [lines] have been handled. *)
Definition run_lines (lines : list line_t) : state_t * written :=
  let '(_, s, w) := handle_lines 0 lines empty_state in (s, w).

(** ** The patterns of the source, as regular expressions

    [^] and [$] make every pattern match the whole string. *)

Inductive regex : Type :=
| Chars (p : ascii -> bool)
| Empty
| Seq (r1 r2 : regex)
| Or (r1 r2 : regex)
| Many (r : regex).

(** [matches r s]: the whole of [s] is in the language of [r]. *)
Inductive matches : regex -> std_string -> Prop :=
| m_chars : forall (p : ascii -> bool) c, p c = true -> matches (Chars p) [c]
| m_empty : matches Empty []
| m_seq : forall r1 r2 s1 s2,
    matches r1 s1 -> matches r2 s2 -> matches (Seq r1 r2) (s1 ++ s2)
| m_or_l : forall r1 r2 s, matches r1 s -> matches (Or r1 r2) s
| m_or_r : forall r1 r2 s, matches r2 s -> matches (Or r1 r2) s
| m_many_0 : forall r, matches (Many r) []
| m_many_1 : forall r s1 s2,
    matches r s1 -> matches (Many r) s2 -> matches (Many r) (s1 ++ s2).

Definition chr (c : ascii) : regex := Chars (is_char c).

(** [r{n}] and [r{0,n}] *)
Fixpoint times (r : regex) (n : nat) : regex :=
  match n with O => Empty | S n' => Seq r (times r n') end.
Fixpoint upto (r : regex) (n : nat) : regex :=
  match n with O => Empty | S n' => Or Empty (Seq r (upto r n')) end.
(** [r{lo,hi}] *)
Definition between (r : regex) (lo hi : nat) : regex :=
  Seq (times r lo) (upto r (hi - lo)).

Definition road_pattern_type : regex := Or (chr "A") (chr "S").
Definition road_pattern_number : regex :=
  Seq (Chars isdigit19) (between (Chars isdigit) 0 2).
Definition road_pattern : regex := Seq road_pattern_type road_pattern_number.

Definition marker_pattern_whole : regex :=
  Or (chr "0") (Seq (Chars isdigit19) (Many (Chars isdigit))).
Definition marker_pattern : regex :=
  Seq marker_pattern_whole (Seq (chr ",") (Chars isdigit)).

Definition plate_pattern : regex := between (Chars is_plate_char) 3 11.

Definition command_pattern_arg : regex := Many (Chars nonspace).
Definition command_pattern : regex :=
  Seq (Many (Chars isspace))
    (Seq (chr "?")
       (Seq (Many (Chars isspace))
          (Seq command_pattern_arg (Many (Chars isspace))))).

(** [s] is empty or starts with a character outside [p]. *)
Definition stops (p : ascii -> bool) (s : std_string) : Prop :=
  match s with [] => True | c :: _ => p c = false end.

(** ** Laws of the key orders *)

(** [operator<] on the key types is a strict total order. *)
Class KeyOrderLaws (K : Type) `{KeyOrder K} : Prop := {
  key_cmp_eq : forall a b : K, key_cmp a b = Eq -> a = b;
  key_cmp_refl : forall a : K, key_cmp a a = Eq;
  key_cmp_antisym : forall a b : K, key_cmp b a = CompOpp (key_cmp a b);
  key_cmp_trans :
    forall a b c : K, key_cmp a b = Lt -> key_cmp b c = Lt -> key_cmp a c = Lt
}.

Definition key_lt {K} `{KeyOrder K} (a b : K) : Prop := key_cmp a b = Lt.

(** Ascending keys, without repetition. *)
Definition map_sorted {K V} `{KeyOrder K} (m : std_map K V) : Prop :=
  StronglySorted key_lt (map_keys m).

(** The orders the report is documented to follow, stated on their own. *)

Definition char_code (c : ascii) : Z := Z.of_N (N_of_ascii c).

Definition type_before (a b : road_type_t) : Prop := char_code a < char_code b.

Inductive plate_before : std_string -> std_string -> Prop :=
| before_prefix : forall c s, plate_before [] (c :: s)
| before_head : forall a b s t, char_code a < char_code b ->
    plate_before (a :: s) (b :: t)
| before_tail : forall a s t, plate_before s t ->
    plate_before (a :: s) (a :: t).

Definition road_before (a b : road_t) : Prop :=
  fst a < fst b \/ (fst a = fst b /\ type_before (snd a) (snd b)).

Definition ledger_sorted (s : state_t) : Prop :=
  map_sorted (vehicles_data s)
  /\ Forall (fun entry => map_sorted (snd entry)) (vehicles_data s)
  /\ map_sorted (roads_data s)
  /\ map_sorted (not_finished s).

(** ** Quantities the properties speak of *)

(** [RoadTotals[r]] and [RoadTypeTotals[v][t]], zero when absent. *)
Definition road_total (s : state_t) (r : road_t) : Z :=
  map_get 0 r (roads_data s).
Definition type_total (s : state_t) (v : vehicle_t) (t : road_type_t) : Z :=
  map_get 0 t (map_get [] v (vehicles_data s)).

(** Two successive records of [v] on the same road [r] close a segment of
    length [|d2 - d1|]. *)
Definition pair_closed (s : state_t) (v : vehicle_t) (r : road_t)
    (d1 d2 : distance_t) (l1 l2 : line_desc_t) : Prop :=
  let (e1, s1) := add_entry s v r d1 l1 in
  let (e2, s2) := add_entry s1 v r d2 l2 in
  e1 = None /\ e2 = None
  /\ road_total s2 r = road_total s r + Z.abs (d2 - d1)
  /\ type_total s2 v (snd r) = type_total s v (snd r) + Z.abs (d2 - d1)
  /\ map_find v (not_finished s2) = None.

(** A call changes exactly one of the two groups of the ledger. *)
Definition one_group_changed (s s' : state_t) : Prop :=
  (not_finished s' <> not_finished s
   /\ vehicles_data s' = vehicles_data s /\ roads_data s' = roads_data s)
  \/ (not_finished s' = not_finished s
      /\ (vehicles_data s' <> vehicles_data s
          \/ roads_data s' <> roads_data s)).

(** The report of the query without argument. *)
Definition dump (s : state_t) : list std_string :=
  map vehicle_line (vehicles_data s) ++ map road_line (roads_data s).

(** The line a point query prints for what [find] returned. *)
Definition found_line {A} (show : A -> std_string) (found : option A)
    : list std_string :=
  match found with Some entry => [show entry] | None => [] end.

(** The line number after [lines] more lines have been read. *)
Definition line_no_after (line_no : line_no_t) (lines : list line_t)
    : line_no_t :=
  fold_left (fun n _ => int_add n 1) lines line_no.

(** ** Inputs of the concrete runs *)

Definition newline : string := String "010" EmptyString.

(** One vehicle, one closed segment, one point query. *)
Definition scenario_segment : string :=
  ("ABC123 A1 10,0" ++ newline ++ "ABC123 A1 15,0" ++ newline
   ++ "? ABC123" ++ newline)%string.

(** A vehicle that changes road without closing its segment. *)
Definition scenario_conflict : string :=
  ("ABC123 A1 10,0" ++ newline ++ "ABC123 S2 5,0" ++ newline
   ++ "? A1" ++ newline ++ "? S2" ++ newline)%string.

(** Three roads, two vehicles, one of them with a plate that reads as a
    road. *)
Definition traffic : list line_t :=
  map lit
    ["ABC S12 1,0"; "ABC S12 1,5"; "A12 A12 3,3"; "A12 A12 1,0";
     "ABC S3 7,0"; "ABC S3 8,0"; "XYZ A7 0,0"]%string.

(** A ledger whose total for road A1 is the largest [int]. *)
Definition full_ledger : state_t :=
  fst (run_lines (map lit ["AAA A1 0,0"; "AAA A1 214748364,7"]%string)).

(** ** Notions of the further properties *)

(** The characters [operator<<] writes for a number given by its decimal
    digits. *)
Definition uint_chars (u : Decimal.uint) : std_string :=
  list_ascii_of_string (NilEmpty.string_of_uint u).

(** The decimal digits a string of digit characters spells. *)
Definition digit_uint (c : ascii) (u : Decimal.uint) : Decimal.uint :=
  match Z.to_nat (digit_value c) with
  | 0%nat => Decimal.D0 u
  | 1%nat => Decimal.D1 u
  | 2%nat => Decimal.D2 u
  | 3%nat => Decimal.D3 u
  | 4%nat => Decimal.D4 u
  | 5%nat => Decimal.D5 u
  | 6%nat => Decimal.D6 u
  | 7%nat => Decimal.D7 u
  | 8%nat => Decimal.D8 u
  | _ => Decimal.D9 u
  end.
Definition chars_uint (s : std_string) : Decimal.uint :=
  fold_right digit_uint Decimal.Nil s.

Definition decimal_step (acc : Z) (c : ascii) : Z := 10 * acc + digit_value c.

(** A road as [parse_road] produces them. *)
Definition road_valid (r : road_t) : Prop :=
  1 <= fst r <= 999 /\ (snd r = "A" \/ snd r = "S").

(** Words laid out on a line: each word with the whitespace before it. *)
Definition layout_text (layout : list (std_string * std_string))
    : std_string :=
  concat (map (fun piece => fst piece ++ snd piece) layout).

Definition is_word (w : std_string) : Prop :=
  w <> [] /\ forallb nonspace w = true.
Definition is_gap (sp : std_string) : Prop :=
  sp <> [] /\ forallb isspace sp = true.

(** The keys of a ledger are plates and roads as the parsers produce them,
    and every vehicle with totals has a total for at least one road type. *)
Definition ledger_valid (s : state_t) : Prop :=
  Forall (fun entry =>
            matches plate_pattern (fst entry)
            /\ snd entry <> []
            /\ Forall (fun t => t = "A" \/ t = "S") (map fst (snd entry)))
    (vehicles_data s)
  /\ Forall road_valid (map fst (roads_data s))
  /\ Forall (fun entry =>
               matches plate_pattern (fst entry)
               /\ road_valid (fst (fst (snd entry))))
       (not_finished s).

(** [ref] is one of [lines], paired with the number the loop gives it. *)
Definition line_ref (lines : list line_t) (ref : line_desc_t) : Prop :=
  exists k,
    nth_error lines k = Some (snd ref)
    /\ fst ref = line_no_after 0 (firstn (S k) lines).

(** The text of [lines], each ended by a newline. *)
Definition unlines (lines : list line_t) : std_string :=
  concat (map (fun l => l ++ ["010"]) lines).

Definition no_newline (l : std_string) : Prop :=
  forallb (fun c => if ascii_dec c "010" then false else true) l = true.

(** A map with [f] applied to every value. *)
Definition map_values {K V W : Type} (f : V -> W) (m : std_map K V)
    : std_map K W :=
  map (fun entry => (fst entry, f (snd entry))) m.

(** The pending entries without the lines they came from. *)
Definition pending_roads (s : state_t)
    : std_map vehicle_t (road_t * distance_t) :=
  map_values fst (not_finished s).

(** Two ledgers that differ at most in the lines their pending entries
    remember. *)
Definition same_ledger (s s' : state_t) : Prop :=
  vehicles_data s = vehicles_data s'
  /\ roads_data s = roads_data s'
  /\ pending_roads s = pending_roads s'.

Definition is_blank (l : line_t) : bool :=
  match l with [] => true | _ :: _ => false end.

(** Ledgers [a] and [b] agree but for the pending entry of vehicle [v],
    which in [a] is [entry]: the totals agree, and so do the pending
    entries of every other vehicle. *)
Definition pending_differs_at (v : vehicle_t) (entry : not_finished_entry_t)
    (a b : state_t) : Prop :=
  vehicles_data a = vehicles_data b
  /\ roads_data a = roads_data b
  /\ map_sorted (not_finished a)
  /\ map_sorted (not_finished b)
  /\ map_find v (not_finished a) = Some (v, entry)
  /\ forall v', v' <> v ->
       map_find v' (not_finished a) = map_find v' (not_finished b).

(** * Properties *)

(** ** Machine integers *)

Lemma wrap_int_small (z : Z) : in_int z -> wrap_int z = z.
Proof.
  unfold in_int, wrap_int, INT_MIN, INT_MAX. intros Hz.
  rewrite Z.mod_small; lia.
Qed.

Lemma wrap_int_range (z : Z) : in_int (wrap_int z).
Proof.
  unfold in_int, wrap_int, INT_MIN, INT_MAX.
  pose proof (Z.mod_pos_bound (z - -2147483648) (2 ^ 32) ltac:(lia)). lia.
Qed.

(** ** Key orders *)

Lemma ascii_compare_spec (a b : ascii) :
  Ascii.compare a b = Z.compare (char_code a) (char_code b).
Proof.
  unfold Ascii.compare, char_code. symmetry. apply N2Z.inj_compare.
Qed.

Lemma char_code_inj (a b : ascii) : char_code a = char_code b -> a = b.
Proof.
  unfold char_code. intros E. apply N2Z.inj in E.
  rewrite <- (ascii_N_embedding a), <- (ascii_N_embedding b). now rewrite E.
Qed.

Lemma ascii_compare_eq (a b : ascii) : Ascii.compare a b = Eq -> a = b.
Proof.
  rewrite ascii_compare_spec. intros E. apply char_code_inj.
  now apply Z.compare_eq.
Qed.

Lemma ascii_compare_refl (a : ascii) : Ascii.compare a a = Eq.
Proof. rewrite ascii_compare_spec. apply Z.compare_refl. Qed.

Lemma ascii_compare_opp (a b : ascii) :
  Ascii.compare b a = CompOpp (Ascii.compare a b).
Proof. rewrite !ascii_compare_spec. apply Z.compare_antisym. Qed.

#[global] Instance ascii_order_laws : KeyOrderLaws ascii.
Proof.
  split; unfold key_cmp, ascii_order.
  - apply ascii_compare_eq.
  - apply ascii_compare_refl.
  - apply ascii_compare_opp.
  - intros a b c. rewrite !ascii_compare_spec, !Z.compare_lt_iff. lia.
Qed.

Lemma string_cmp_eq (a b : std_string) : string_cmp a b = Eq -> a = b.
Proof.
  revert b. induction a as [|x a IH]; intros [|y b]; simpl; try discriminate.
  - reflexivity.
  - destruct (Ascii.compare x y) eqn:E; try discriminate.
    intros Hab. apply ascii_compare_eq in E. subst y.
    f_equal. now apply IH.
Qed.

Lemma string_cmp_refl (a : std_string) : string_cmp a a = Eq.
Proof.
  induction a as [|x a IH]; simpl; [reflexivity|].
  now rewrite ascii_compare_refl.
Qed.

Lemma string_cmp_antisym (a b : std_string) :
  string_cmp b a = CompOpp (string_cmp a b).
Proof.
  revert b. induction a as [|x a IH]; intros [|y b]; simpl; try reflexivity.
  rewrite (ascii_compare_opp x y).
  destruct (Ascii.compare x y); simpl; auto.
Qed.

Lemma string_cmp_lt (a b : std_string) :
  string_cmp a b = Lt <-> plate_before a b.
Proof.
  split.
  - revert b. induction a as [|x a IH]; intros [|y b]; simpl;
      try discriminate.
    + constructor.
    + destruct (Ascii.compare x y) eqn:E; try discriminate.
      * apply ascii_compare_eq in E. subst y.
        intros Hab. apply before_tail. now apply IH.
      * intros _. apply before_head.
        rewrite ascii_compare_spec in E. now apply Z.compare_lt_iff.
  - induction 1 as [c s | x y s t Hxy | x s t Hst IH]; simpl.
    + reflexivity.
    + apply Z.compare_lt_iff in Hxy. rewrite <- ascii_compare_spec in Hxy.
      now rewrite Hxy.
    + now rewrite ascii_compare_refl.
Qed.

Lemma plate_before_trans (a b c : std_string) :
  plate_before a b -> plate_before b c -> plate_before a c.
Proof.
  intros Hab. revert c.
  induction Hab as [x s | x y s t Hxy | x s t Hst IH]; intros c Hbc;
    inversion Hbc; subst.
  - constructor.
  - constructor.
  - apply before_head. lia.
  - now apply before_head.
  - now apply before_head.
  - apply before_tail. now apply IH.
Qed.

#[global] Instance string_order_laws : KeyOrderLaws std_string.
Proof.
  split; unfold key_cmp, string_order.
  - apply string_cmp_eq.
  - apply string_cmp_refl.
  - apply string_cmp_antisym.
  - intros a b c. rewrite !string_cmp_lt. apply plate_before_trans.
Qed.

Lemma road_cmp_lt (a b : road_t) : road_cmp a b = Lt <-> road_before a b.
Proof.
  unfold road_cmp, road_before, type_before.
  destruct (Z.compare_spec (fst a) (fst b)) as [E | L | G].
  - rewrite ascii_compare_spec, Z.compare_lt_iff. intuition lia.
  - intuition lia.
  - split; [discriminate | lia].
Qed.

#[global] Instance road_order_laws : KeyOrderLaws road_t.
Proof.
  split; unfold key_cmp, road_order.
  - intros [n t] [n' t']; unfold road_cmp; simpl.
    destruct (Z.compare_spec n n'); try discriminate.
    intros E. apply ascii_compare_eq in E. congruence.
  - intros [n t]; unfold road_cmp; simpl. rewrite Z.compare_refl.
    apply ascii_compare_refl.
  - intros [n t] [n' t']; unfold road_cmp; simpl.
    rewrite (Z.compare_antisym n n'), (ascii_compare_opp t t').
    destruct (n ?= n'); reflexivity.
  - intros a b c. rewrite !road_cmp_lt. unfold road_before, type_before.
    lia.
Qed.

(** ** [std::map] *)

Section std_map_facts.
Context {K V : Type} `{KeyOrderLaws K}.
Implicit Types (k : K) (v : V) (m : std_map K V).

Lemma key_cmp_gt_lt k k' : key_cmp k k' = Gt -> key_cmp k' k = Lt.
Proof. intros E. rewrite (key_cmp_antisym k k'), E. reflexivity. Qed.

Lemma map_find_key k m e : map_find k m = Some e -> fst e = k.
Proof.
  induction m as [|[k' v'] m IH]; simpl; [discriminate|].
  destruct (key_cmp k k') eqn:E; try discriminate; auto.
  intros [= <-]. symmetry. now apply key_cmp_eq.
Qed.

Lemma map_find_In k m e : map_find k m = Some e -> In e m.
Proof.
  induction m as [|[k' v'] m IH]; simpl; [discriminate|].
  destruct (key_cmp k k'); try discriminate; auto.
  intros [= <-]. now left.
Qed.

Lemma map_find_set k v m : map_find k (map_set k v m) = Some (k, v).
Proof.
  induction m as [|[k' v'] m IH]; simpl.
  - now rewrite key_cmp_refl.
  - destruct (key_cmp k k') eqn:E; simpl.
    + rewrite E. apply key_cmp_eq in E. now subst.
    + now rewrite key_cmp_refl.
    + now rewrite E.
Qed.

Lemma map_get_set dflt k v m : map_get dflt k (map_set k v m) = v.
Proof. unfold map_get. now rewrite map_find_set. Qed.

Lemma map_find_set_other k k2 v m :
  k2 <> k -> map_find k2 (map_set k v m) = map_find k2 m.
Proof.
  intros Hne. induction m as [|[k' v'] m IH]; simpl.
  - destruct (key_cmp k2 k) eqn:E; auto.
    apply key_cmp_eq in E. contradiction.
  - destruct (key_cmp k k') eqn:E; simpl.
    + apply key_cmp_eq in E. subst k'.
      destruct (key_cmp k2 k) eqn:E2; auto.
      apply key_cmp_eq in E2. contradiction.
    + destruct (key_cmp k2 k) eqn:E2.
      * apply key_cmp_eq in E2. contradiction.
      * now rewrite (key_cmp_trans _ _ _ E2 E).
      * reflexivity.
    + destruct (key_cmp k2 k'); auto.
Qed.

(** Erasing an entry just opened for a key that had none restores the map. *)
Lemma map_erase_set k v m :
  map_find k m = None -> map_erase k (map_set k v m) = m.
Proof.
  induction m as [|[k' v'] m IH]; simpl.
  - now rewrite key_cmp_refl.
  - destruct (key_cmp k k') eqn:E; simpl; try discriminate.
    + now rewrite key_cmp_refl.
    + rewrite E. intros Hm. now rewrite IH.
Qed.

Lemma map_set_length_fresh k v m :
  map_find k m = None -> length (map_set k v m) = S (length m).
Proof.
  induction m as [|[k' v'] m IH]; simpl; auto.
  destruct (key_cmp k k'); simpl; try discriminate; auto.
Qed.

Lemma map_erase_length k m e :
  map_find k m = Some e -> S (length (map_erase k m)) = length m.
Proof.
  induction m as [|[k' v'] m IH]; simpl; [discriminate|].
  destruct (key_cmp k k'); simpl; try discriminate; auto.
Qed.

(** Assigning a different value to a present key changes the map. *)
Lemma map_set_changes k v v0 m :
  map_find k m = Some (k, v0) -> v <> v0 -> map_set k v m <> m.
Proof.
  induction m as [|[k' v'] m IH]; simpl; [discriminate|].
  destruct (key_cmp k k'); try discriminate.
  - intros [= -> ->] Hne [= E]. contradiction.
  - intros Hm Hne [= E]. now apply IH.
Qed.

Lemma map_set_keys_Forall (P : K -> Prop) k v m :
  P k -> Forall P (map_keys m) -> Forall P (map_keys (map_set k v m)).
Proof.
  intros Hk. induction m as [|[k' v'] m IH]; simpl; intros Hm.
  - now constructor.
  - inversion Hm; subst.
    destruct (key_cmp k k'); simpl; constructor; auto.
Qed.

Lemma map_set_values_Forall (P : K * V -> Prop) k v m :
  P (k, v) -> Forall P m -> Forall P (map_set k v m).
Proof.
  intros Hk. induction m as [|[k' v'] m IH]; simpl; intros Hm.
  - now constructor.
  - inversion Hm; subst.
    destruct (key_cmp k k') eqn:E; simpl; constructor; auto.
    apply key_cmp_eq in E. now subst.
Qed.

Lemma map_erase_keys_Forall (P : K -> Prop) k m :
  Forall P (map_keys m) -> Forall P (map_keys (map_erase k m)).
Proof.
  induction m as [|[k' v'] m IH]; simpl; intros Hm; auto.
  inversion Hm; subst.
  destruct (key_cmp k k'); simpl; auto.
Qed.

Lemma map_set_sorted k v m : map_sorted m -> map_sorted (map_set k v m).
Proof.
  unfold map_sorted.
  induction m as [|[k' v'] m IH]; simpl; intros Hm.
  - repeat constructor.
  - apply StronglySorted_inv in Hm. destruct Hm as [Hs Hall].
    destruct (key_cmp k k') eqn:E; simpl.
    + now constructor.
    + constructor; [now constructor|].
      constructor; [exact E|].
      eapply Forall_impl; [|exact Hall].
      intros a Ha. exact (key_cmp_trans _ _ _ E Ha).
    + constructor; [now apply IH|].
      apply map_set_keys_Forall; [|exact Hall].
      now apply key_cmp_gt_lt.
Qed.

Lemma map_erase_sorted k m : map_sorted m -> map_sorted (map_erase k m).
Proof.
  unfold map_sorted.
  induction m as [|[k' v'] m IH]; simpl; intros Hm; auto.
  pose proof Hm as Hm'.
  apply StronglySorted_inv in Hm'. destruct Hm' as [Hs Hall].
  destruct (key_cmp k k'); simpl; auto.
  constructor; [now apply IH|]. now apply map_erase_keys_Forall.
Qed.

(** In a sorted map an erased key is gone. *)
Lemma map_find_erase k m :
  map_sorted m -> map_find k (map_erase k m) = None.
Proof.
  unfold map_sorted.
  induction m as [|[k' v'] m IH]; simpl; intros Hm; auto.
  apply StronglySorted_inv in Hm. destruct Hm as [Hs Hall].
  destruct (key_cmp k k') eqn:E; simpl.
  - apply key_cmp_eq in E. subst k'.
    destruct m as [|[k2 v2] m]; simpl; auto.
    inversion Hall as [|? ? Hlt _]; subst. unfold key_lt in Hlt.
    now rewrite Hlt.
  - now rewrite E.
  - rewrite E. now apply IH.
Qed.
End std_map_facts.

(** ** [add_entry] *)

Lemma add_entry_fresh s v r d l :
  map_find v (not_finished s) = None ->
  add_entry s v r d l =
  (None, mk_state (vehicles_data s) (roads_data s)
           (map_set v (r, d, l) (not_finished s))).
Proof. unfold add_entry. now intros ->. Qed.

Lemma add_entry_same_road s v r d0 l0 d l :
  map_find v (not_finished s) = Some (v, (r, d0, l0)) ->
  add_entry s v r d l =
  (None,
   mk_state
     (map_set v
        (add_distance (snd r) (int_abs (int_sub d d0))
           (map_get [] v (vehicles_data s)))
        (vehicles_data s))
     (add_distance r (int_abs (int_sub d d0)) (roads_data s))
     (map_erase v (not_finished s))).
Proof.
  unfold add_entry. intros ->.
  destruct (road_eq_dec r r) as [_ | Hne]; [reflexivity | contradiction].
Qed.

Lemma add_entry_other_road s v r0 d0 l0 r d l :
  map_find v (not_finished s) = Some (v, (r0, d0, l0)) -> r0 <> r ->
  add_entry s v r d l =
  (Some l0, mk_state (vehicles_data s) (roads_data s)
              (map_set v (r, d, l) (not_finished s))).
Proof.
  unfold add_entry. intros -> Hne.
  destruct (road_eq_dec r0 r) as [E | _]; [contradiction | reflexivity].
Qed.

Lemma traveled_exact (d1 d2 : Z) :
  Z.abs (d2 - d1) <= INT_MAX -> int_abs (int_sub d2 d1) = Z.abs (d2 - d1).
Proof.
  intros Hd. unfold int_abs, int_sub.
  rewrite (wrap_int_small (d2 - d1)).
  - apply wrap_int_small. unfold in_int, INT_MIN, INT_MAX in *. lia.
  - unfold in_int, INT_MIN, INT_MAX in *. lia.
Qed.

(** C1, as amended: when vehicle [v] has no pending entry, recording
    [(v, r, d1)] and then [(v, r, d2)] returns no error from either call,
    increases [RoadTotals[r]] and [RoadTypeTotals[v][r.type]] by exactly
    [abs (d2 - d1)] and leaves [v] without a pending entry, provided
    [abs (d2 - d1)] and the two increased totals fit in an [int]. *)
Theorem add_entry_pair_same_road (s : state_t) (v : vehicle_t) (r : road_t)
    (d1 d2 : distance_t) (l1 l2 : line_desc_t) :
  map_find v (not_finished s) = None ->
  Z.abs (d2 - d1) <= INT_MAX ->
  in_int (road_total s r + Z.abs (d2 - d1)) ->
  in_int (type_total s v (snd r) + Z.abs (d2 - d1)) ->
  pair_closed s v r d1 d2 l1 l2.
Proof.
  intros Hfresh Hd Hroad Htype. unfold pair_closed.
  rewrite (add_entry_fresh _ _ _ _ _ Hfresh).
  rewrite (add_entry_same_road _ v r d1 l1)
    by (simpl; apply map_find_set).
  unfold road_total, type_total, add_distance, int_add in *. simpl.
  rewrite (traveled_exact _ _ Hd), !map_get_set.
  rewrite (wrap_int_small _ Hroad), (wrap_int_small _ Htype).
  repeat split; try reflexivity.
  rewrite (map_erase_set _ _ _ Hfresh). exact Hfresh.
Qed.

(** C2: when vehicle [v] has no pending entry and [r1 <> r2], recording
    [(v, r1, d1)] and then [(v, r2, d2)] makes the second call return the
    line of the first record, leaves [v] pending on [r2] at [d2], and leaves
    both tables of totals as they were. *)
Theorem add_entry_pair_other_road (s : state_t) (v : vehicle_t)
    (r1 r2 : road_t) (d1 d2 : distance_t) (l1 l2 : line_desc_t) :
  map_find v (not_finished s) = None ->
  r1 <> r2 ->
  let (e1, s1) := add_entry s v r1 d1 l1 in
  let (e2, s2) := add_entry s1 v r2 d2 l2 in
  e1 = None /\ e2 = Some l1
  /\ map_find v (not_finished s2) = Some (v, (r2, d2, l2))
  /\ vehicles_data s2 = vehicles_data s
  /\ roads_data s2 = roads_data s.
Proof.
  intros Hfresh Hne.
  rewrite (add_entry_fresh _ _ _ _ _ Hfresh).
  rewrite (add_entry_other_road _ v r1 d1 l1 r2 d2 l2)
    by (simpl; auto; apply map_find_set).
  simpl. repeat split; try reflexivity. apply map_find_set.
Qed.

(** In a ledger of the program, closing a segment leaves the vehicle
    without a pending entry. *)
Lemma add_entry_same_road_clears s v r d0 l0 d l :
  map_sorted (not_finished s) ->
  map_find v (not_finished s) = Some (v, (r, d0, l0)) ->
  map_find v (not_finished (snd (add_entry s v r d l))) = None.
Proof.
  intros Hs Hfind. rewrite (add_entry_same_road _ _ _ _ _ _ _ Hfind).
  cbn [snd not_finished]. now apply map_find_erase.
Qed.

(** C4, as amended: every call to [add_entry] changes the pending entries.
    A call that finds no pending entry of the vehicle, or one on another
    road, stores the new pending entry and leaves both tables of totals
    untouched; a call that finds a pending entry on the same road adds the
    travelled distance to both tables of totals, creating the entries that
    are absent, and erases the pending entry as well. *)
Theorem add_entry_effect (s : state_t) (v : vehicle_t) (r : road_t)
    (d : distance_t) (l : line_desc_t) :
  let s' := snd (add_entry s v r d l) in
  not_finished s' <> not_finished s
  /\ ((not_finished s' = map_set v (r, d, l) (not_finished s)
       /\ vehicles_data s' = vehicles_data s
       /\ roads_data s' = roads_data s
       /\ forall d0 l0,
            map_find v (not_finished s) <> Some (v, (r, d0, l0)))
      \/ (exists d0 l0,
            map_find v (not_finished s) = Some (v, (r, d0, l0))
            /\ not_finished s' = map_erase v (not_finished s)
            /\ roads_data s' =
               add_distance r (int_abs (int_sub d d0)) (roads_data s)
            /\ vehicles_data s' =
               map_set v
                 (add_distance (snd r) (int_abs (int_sub d d0))
                    (map_get [] v (vehicles_data s)))
                 (vehicles_data s))).
Proof.
  destruct (map_find v (not_finished s)) as [[k [[r0 d0] l0]]|] eqn:Hfind.
  - pose proof (map_find_key _ _ _ Hfind) as Hk. simpl in Hk. subst k.
    destruct (road_eq_dec r0 r) as [-> | Hne].
    + rewrite (add_entry_same_road _ _ _ _ _ _ _ Hfind). simpl. split.
      * intros E. pose proof (map_erase_length _ _ _ Hfind) as Hlen.
        rewrite E in Hlen. lia.
      * right. exists d0, l0. repeat split.
    + rewrite (add_entry_other_road _ _ _ _ _ _ _ _ Hfind Hne). simpl. split.
      * apply (map_set_changes _ _ _ _ Hfind). congruence.
      * left. repeat split. intros d' l'. congruence.
  - rewrite (add_entry_fresh _ _ _ _ _ Hfind). simpl. split.
    + intros E. pose proof (map_set_length_fresh v (r, d, l) _ Hfind) as Hlen.
      rewrite E in Hlen. lia.
    + left. repeat split. intros d' l'. discriminate.
Qed.

(** ** The pattern matchers accept the languages of the patterns *)

Lemma drop_while_all (p : ascii -> bool) (s : std_string) :
  forallb p s = true -> drop_while p s = [].
Proof.
  induction s as [|c s IH]; simpl; [reflexivity|].
  destruct (p c); simpl; [exact IH | discriminate].
Qed.

Lemma split_words_all_space (s : std_string) :
  forallb isspace s = true -> split_words [] s = [].
Proof.
  induction s as [|c s IH]; simpl; [reflexivity|].
  destruct (isspace c); simpl; [exact IH | discriminate].
Qed.

Lemma matches_chars (p : ascii -> bool) (s : std_string) :
  matches (Chars p) s <-> exists c, s = [c] /\ p c = true.
Proof.
  split.
  - inversion 1; subst. eauto.
  - intros (c & -> & Hc). now constructor.
Qed.

Lemma matches_chr (c : ascii) (s : std_string) :
  matches (chr c) s <-> s = [c].
Proof.
  unfold chr, is_char. rewrite matches_chars. split.
  - intros (x & -> & Hx). destruct (ascii_dec x c); congruence.
  - intros ->. exists c. split; [reflexivity|].
    destruct (ascii_dec c c); congruence.
Qed.

Lemma matches_empty (s : std_string) : matches Empty s <-> s = [].
Proof. split; [now inversion 1 | intros ->; constructor]. Qed.

Lemma matches_seq (r1 r2 : regex) (s : std_string) :
  matches (Seq r1 r2) s
  <-> exists s1 s2, s = s1 ++ s2 /\ matches r1 s1 /\ matches r2 s2.
Proof.
  split.
  - inversion 1; subst. eauto.
  - intros (s1 & s2 & -> & H1 & H2). now constructor.
Qed.

Lemma matches_or (r1 r2 : regex) (s : std_string) :
  matches (Or r1 r2) s <-> matches r1 s \/ matches r2 s.
Proof.
  split.
  - inversion 1; subst; auto.
  - intros [H | H]; [now apply m_or_l | now apply m_or_r].
Qed.

Lemma matches_many_chars (p : ascii -> bool) (s : std_string) :
  matches (Many (Chars p)) s <-> forallb p s = true.
Proof.
  split.
  - intros Hm. remember (Many (Chars p)) as r eqn:Hr.
    induction Hm as [| | | | | r | r s1 s2 H1 _ H2 IH2]; try discriminate.
    + reflexivity.
    + injection Hr as ->. apply matches_chars in H1.
      destruct H1 as (c & -> & Hc). simpl. rewrite Hc. now apply IH2.
  - induction s as [|c s IH]; simpl; intros Hs.
    + constructor.
    + apply andb_prop in Hs. destruct Hs as [Hc Hs].
      apply (m_many_1 _ [c] s); [now constructor | now apply IH].
Qed.

Lemma matches_times_chars (p : ascii -> bool) (n : nat) (s : std_string) :
  matches (times (Chars p) n) s <-> length s = n /\ forallb p s = true.
Proof.
  revert s. induction n as [|n IH]; intros s; simpl.
  - rewrite matches_empty. split.
    + now intros ->.
    + intros [Hl _]. now apply length_zero_iff_nil.
  - rewrite matches_seq. split.
    + intros (s1 & s2 & -> & H1 & H2).
      apply matches_chars in H1. destruct H1 as (c & -> & Hc).
      apply IH in H2. destruct H2 as [Hl Hs]. simpl. rewrite Hc, Hl. auto.
    + intros [Hl Hs]. destruct s as [|c s]; [discriminate|].
      simpl in *. apply andb_prop in Hs. destruct Hs as [Hc Hs].
      exists [c], s. repeat split.
      * now constructor.
      * apply IH. split; [lia | exact Hs].
Qed.

Lemma matches_upto_chars (p : ascii -> bool) (n : nat) (s : std_string) :
  matches (upto (Chars p) n) s
  <-> (length s <= n)%nat /\ forallb p s = true.
Proof.
  revert s. induction n as [|n IH]; intros s; simpl.
  - rewrite matches_empty. split.
    + intros ->. auto.
    + intros [Hl _]. apply length_zero_iff_nil. lia.
  - rewrite matches_or, matches_empty, matches_seq. split.
    + intros [-> | (s1 & s2 & -> & H1 & H2)].
      * simpl. split; [lia | reflexivity].
      * apply matches_chars in H1. destruct H1 as (c & -> & Hc).
        apply IH in H2. destruct H2 as [Hl Hs]. simpl. rewrite Hc.
        split; [lia | exact Hs].
    + intros [Hl Hs]. destruct s as [|c s]; [now left | right].
      simpl in *. apply andb_prop in Hs. destruct Hs as [Hc Hs].
      exists [c], s. repeat split.
      * now constructor.
      * apply IH. split; [lia | exact Hs].
Qed.

Lemma matches_between_chars (p : ascii -> bool) (lo hi : nat)
    (s : std_string) :
  (lo <= hi)%nat ->
  matches (between (Chars p) lo hi) s
  <-> (lo <= length s <= hi)%nat /\ forallb p s = true.
Proof.
  intros Hlh. unfold between. rewrite matches_seq. split.
  - intros (s1 & s2 & -> & H1 & H2).
    apply matches_times_chars in H1. apply matches_upto_chars in H2.
    rewrite length_app, forallb_app. destruct H1 as [<- ->], H2 as [Hl ->].
    split; [lia | reflexivity].
  - intros [Hl Hs].
    exists (firstn lo s), (skipn lo s).
    rewrite <- (firstn_skipn lo s) in Hs. rewrite forallb_app in Hs.
    apply andb_prop in Hs. destruct Hs as [H1 H2].
    split; [now rewrite firstn_skipn|]. split.
    + apply matches_times_chars. split; [|exact H1].
      rewrite length_firstn. lia.
    + apply matches_upto_chars. split; [|exact H2].
      rewrite length_skipn. lia.
Qed.

Lemma span_spec (p : ascii -> bool) (s a b : std_string) :
  span p s = (a, b) -> s = a ++ b /\ forallb p a = true /\ stops p b.
Proof.
  revert a b. induction s as [|c s IH]; simpl; intros a b.
  - intros [= <- <-]. simpl. auto.
  - destruct (p c) eqn:Hc.
    + destruct (span p s) as [a' b']. intros [= <- <-].
      destruct (IH _ _ eq_refl) as (-> & Ha & Hb). simpl. rewrite Hc. auto.
    + intros [= <- <-]. simpl. auto.
Qed.

Lemma span_app (p : ascii -> bool) (a b : std_string) :
  forallb p a = true -> stops p b -> span p (a ++ b) = (a, b).
Proof.
  intros Ha Hb. induction a as [|c a IH]; simpl in *.
  - destruct b as [|c b]; simpl in *; [reflexivity | now rewrite Hb].
  - apply andb_prop in Ha. destruct Ha as [Hc Ha].
    now rewrite Hc, (IH Ha).
Qed.

Lemma drop_while_spec (p : ascii -> bool) (s : std_string) :
  exists a, s = a ++ drop_while p s /\ forallb p a = true
            /\ stops p (drop_while p s).
Proof.
  induction s as [|c s IH]; simpl.
  - exists []. simpl. auto.
  - destruct (p c) eqn:Hc.
    + destruct IH as (a & Hs & Ha & Hb). exists (c :: a). simpl.
      rewrite Hc. repeat split; auto. now f_equal.
    + exists []. simpl. auto.
Qed.

Lemma drop_while_app (p : ascii -> bool) (a b : std_string) :
  forallb p a = true -> stops p b -> drop_while p (a ++ b) = b.
Proof.
  intros Ha Hb. induction a as [|c a IH]; simpl in *.
  - destruct b as [|c b]; simpl in *; [reflexivity | now rewrite Hb].
  - apply andb_prop in Ha. destruct Ha as [Hc Ha]. rewrite Hc. auto.
Qed.

Lemma is_char_true (c x : ascii) : is_char c x = true <-> x = c.
Proof. unfold is_char. destruct (ascii_dec x c); split; congruence. Qed.

Lemma isdigit19_isdigit (c : ascii) : isdigit19 c = true -> isdigit c = true.
Proof.
  unfold isdigit19, isdigit, char_in. rewrite !andb_true_iff, !N.leb_le.
  simpl. lia.
Qed.

(** *** Plates *)

Lemma plate_regex_correct (s : std_string) :
  plate_regex s = true <-> matches plate_pattern s.
Proof.
  unfold plate_regex, plate_pattern.
  rewrite matches_between_chars by lia.
  rewrite !andb_true_iff, !Nat.leb_le. tauto.
Qed.

(** *** Roads *)

Lemma matches_road_type (s : std_string) :
  matches road_pattern_type s <-> exists t, s = [t] /\ is_road_type t = true.
Proof.
  unfold road_pattern_type, is_road_type.
  rewrite matches_or, !matches_chr. split.
  - intros [-> | ->]; eexists; split; reflexivity.
  - intros (t & -> & Ht). apply orb_prop in Ht.
    rewrite !is_char_true in Ht. destruct Ht as [-> | ->]; auto.
Qed.

Lemma matches_road_number (s : std_string) :
  matches road_pattern_number s
  <-> exists d ds, s = d :: ds /\ isdigit19 d = true
                   /\ (length ds <= 2)%nat /\ forallb isdigit ds = true.
Proof.
  unfold road_pattern_number.
  rewrite matches_seq. split.
  - intros (s1 & s2 & -> & H1 & H2).
    apply matches_chars in H1. destruct H1 as (d & -> & Hd).
    apply matches_between_chars in H2; [|lia].
    exists d, s2. simpl. intuition lia.
  - intros (d & ds & -> & Hd & Hl & Hds). exists [d], ds.
    split; [reflexivity|]. split; [now constructor|].
    apply matches_between_chars; [lia|]. split; [lia | exact Hds].
Qed.

Lemma road_regex_correct (s g1 g2 : std_string) :
  road_regex s = Some (g1, g2)
  <-> s = g1 ++ g2 /\ matches road_pattern_type g1
      /\ matches road_pattern_number g2.
Proof.
  rewrite matches_road_type, matches_road_number. split.
  - destruct s as [|t [|d ds]]; simpl; try discriminate.
    destruct (is_road_type t) eqn:Ht; [|discriminate].
    destruct (isdigit19 d) eqn:Hd; [|discriminate].
    destruct (Nat.leb_spec (length ds) 2) as [Hl|]; [|discriminate].
    destruct (forallb isdigit ds) eqn:Hds; [|discriminate].
    simpl. intros [= <- <-]. eauto 10.
  - intros (-> & (t & -> & Ht) & (d & ds & -> & Hd & Hl & Hds)).
    simpl. rewrite Ht, Hd, Hds.
    apply Nat.leb_le in Hl. now rewrite Hl.
Qed.

Lemma road_pattern_correct (s : std_string) :
  matches road_pattern s <-> exists groups, road_regex s = Some groups.
Proof.
  unfold road_pattern. rewrite matches_seq. split.
  - intros (g1 & g2 & Hs & H1 & H2). exists (g1, g2).
    now apply road_regex_correct.
  - intros ([g1 g2] & Hg). apply road_regex_correct in Hg.
    exists g1, g2. exact Hg.
Qed.

(** *** Markers *)

Lemma matches_marker_whole (j : std_string) :
  matches marker_pattern_whole j
  <-> forallb isdigit j = true /\ whole_part_ok j = true.
Proof.
  unfold marker_pattern_whole.
  rewrite matches_or, matches_chr, matches_seq. split.
  - intros [-> | (s1 & s2 & -> & H1 & H2)].
    + split; reflexivity.
    + apply matches_chars in H1. destruct H1 as (c & -> & Hc).
      apply matches_many_chars in H2. simpl.
      rewrite (isdigit19_isdigit _ Hc), Hc, H2, orb_true_r. auto.
  - intros [Hd Hok]. destruct j as [|c ds]; [discriminate|].
    simpl in *. apply andb_prop in Hd. destruct Hd as [Hc Hds].
    apply orb_prop in Hok. destruct Hok as [H0 | H19].
    + apply andb_prop in H0. destruct H0 as [H0 Hnil].
      apply is_char_true in H0. subst c.
      destruct ds; [now left | discriminate].
    + right. exists [c], ds. split; [reflexivity|].
      split; [now constructor | now apply matches_many_chars].
Qed.

Lemma distance_regex_correct (s junction : std_string) (d : ascii) :
  distance_regex s = Some (junction, d)
  <-> s = junction ++ [","; d] /\ matches marker_pattern_whole junction
      /\ isdigit d = true.
Proof.
  rewrite matches_marker_whole. unfold distance_regex. split.
  - destruct (span isdigit s) as [j rest] eqn:Hspan.
    apply span_spec in Hspan. destruct Hspan as (-> & Hj & _).
    destruct rest as [|comma [|d' [|? ?]]]; try discriminate.
    destruct (is_char "," comma) eqn:Hcomma; [|discriminate].
    destruct (isdigit d') eqn:Hd; [|discriminate].
    destruct (whole_part_ok j) eqn:Hok; [|discriminate].
    simpl. intros [= <- <-]. apply is_char_true in Hcomma. subst comma.
    auto.
  - intros (-> & (Hj & Hok) & Hd).
    rewrite (span_app isdigit junction [","; d] Hj) by reflexivity.
    simpl. now rewrite Hd, Hok.
Qed.

Lemma marker_pattern_correct (s : std_string) :
  matches marker_pattern s <-> exists groups, distance_regex s = Some groups.
Proof.
  unfold marker_pattern. rewrite matches_seq. split.
  - intros (j & s2 & -> & Hj & H2). apply matches_seq in H2.
    destruct H2 as (s3 & s4 & -> & H3 & H4).
    apply matches_chr in H3. subst s3.
    apply matches_chars in H4. destruct H4 as (d & -> & Hd).
    exists (j, d). apply distance_regex_correct. auto.
  - intros ([j d] & Hg). apply distance_regex_correct in Hg.
    destruct Hg as (-> & Hj & Hd). exists j, [","; d].
    split; [reflexivity|]. split; [exact Hj|].
    apply (m_seq _ _ [","] [d]); [now apply matches_chr | now constructor].
Qed.

(** *** Commands *)

Lemma command_regex_correct (line arg : std_string) :
  command_regex line = Some arg
  <-> exists ws1 ws2 ws3,
        line = ws1 ++ "?" :: ws2 ++ arg ++ ws3
        /\ forallb isspace ws1 = true /\ forallb isspace ws2 = true
        /\ forallb nonspace arg = true /\ forallb isspace ws3 = true.
Proof.
  unfold command_regex. split.
  - destruct (drop_while_spec isspace line) as (ws1 & Hline & Hws1 & _).
    destruct (drop_while isspace line) as [|mark after_mark]; [discriminate|].
    destruct (drop_while_spec isspace after_mark) as (ws2 & Hafter & Hws2 & _).
    destruct (span nonspace (drop_while isspace after_mark)) as [a rest]
      eqn:Hspan.
    apply span_spec in Hspan. destruct Hspan as (Hrest & Ha & _).
    destruct (is_char "?" mark) eqn:Hmark; [|discriminate].
    destruct (forallb isspace rest) eqn:Hws3; [|discriminate].
    simpl. intros [= <-]. apply is_char_true in Hmark. subst mark.
    exists ws1, ws2, rest. rewrite <- Hrest, <- Hafter. auto.
  - intros (ws1 & ws2 & ws3 & -> & Hws1 & Hws2 & Ha & Hws3).
    rewrite (drop_while_app isspace ws1 _ Hws1) by reflexivity.
    assert (exists rest,
              span nonspace (drop_while isspace (ws2 ++ arg ++ ws3))
              = (arg, rest) /\ forallb isspace rest = true)
      as (rest & -> & Hrest).
    { destruct arg as [|c arg].
      - exists []. simpl.
        rewrite (drop_while_all isspace (ws2 ++ ws3))
          by (now rewrite forallb_app, Hws2, Hws3).
        auto.
      - exists ws3. split; [|exact Hws3].
        pose proof Ha as Hc. simpl in Hc. apply andb_prop in Hc.
        destruct Hc as [Hc _]. unfold nonspace in Hc.
        rewrite (drop_while_app isspace ws2 ((c :: arg) ++ ws3) Hws2)
          by (simpl; now destruct (isspace c)).
        apply span_app; [exact Ha|].
        destruct ws3 as [|w ws3]; [exact I|]. simpl in *.
        apply andb_prop in Hws3. destruct Hws3 as [Hw _].
        unfold nonspace. now rewrite Hw. }
    simpl. now rewrite Hrest.
Qed.

Lemma command_pattern_correct (line : std_string) :
  matches command_pattern line <-> exists arg, command_regex line = Some arg.
Proof.
  unfold command_pattern, command_pattern_arg. split.
  - intros H.
    apply matches_seq in H. destruct H as (ws1 & s1 & -> & Hws1 & H).
    apply matches_seq in H. destruct H as (m & s2 & -> & Hm & H).
    apply matches_seq in H. destruct H as (ws2 & s3 & -> & Hws2 & H).
    apply matches_seq in H. destruct H as (arg & ws3 & -> & Harg & Hws3).
    apply matches_chr in Hm. subst m.
    rewrite matches_many_chars in Hws1, Hws2, Harg, Hws3.
    exists arg. apply command_regex_correct. exists ws1, ws2, ws3. auto.
  - intros (arg & Harg). apply command_regex_correct in Harg.
    destruct Harg as (ws1 & ws2 & ws3 & -> & Hws1 & Hws2 & Ha & Hws3).
    rewrite <- matches_many_chars in Hws1, Hws2, Ha, Hws3.
    apply m_seq; [exact Hws1|].
    apply (m_seq _ _ ["?"]); [now apply matches_chr|].
    apply m_seq; [exact Hws2|]. now apply m_seq.
Qed.

(** The first word [split_words] delivers starts the text once leading
    whitespace is skipped. *)
Lemma split_words_first (s word w : std_string) (ws : list std_string) :
  split_words word s = w :: ws ->
  w <> []
  /\ exists rest,
       rev word ++ match word with [] => drop_while isspace s | _ => s end
       = w ++ rest.
Proof.
  revert word. induction s as [|c s IH]; intros word; simpl.
  - destruct word as [|x word]; [discriminate|].
    intros [= <- <-]. split.
    + simpl. now destruct (rev word).
    + exists []. reflexivity.
  - destruct (isspace c) eqn:Hc.
    + destruct word as [|x word].
      * intros Hw. apply IH in Hw. exact Hw.
      * intros [= <- <-]. split.
        -- simpl. now destruct (rev word).
        -- exists (c :: s). reflexivity.
    + intros Hw. apply IH in Hw. destruct Hw as (Hne & rest & Hrest).
      split; [exact Hne|]. exists rest. rewrite <- Hrest. simpl.
      rewrite <- app_assoc. simpl. now destruct word.
Qed.

Lemma plate_regex_first (s : std_string) :
  plate_regex s = true -> exists c s', s = c :: s' /\ is_plate_char c = true.
Proof.
  unfold plate_regex. destruct s as [|c s]; [discriminate|].
  rewrite !andb_true_iff. simpl. rewrite andb_true_iff.
  intros (_ & Hc & _). eauto.
Qed.

Lemma parse_info_not_command (line : line_t) (info : info_desc_t) :
  parse_info line = Some info -> parse_command line = None.
Proof.
  unfold parse_info, split_args.
  destruct (split_words [] line) as [|a0 [|a1 [|a2 [|? ?]]]] eqn:Hsplit;
    try discriminate.
  unfold parse_vehicle.
  destruct (plate_regex a0) eqn:Hplate; [|discriminate]. intros _.
  apply plate_regex_first in Hplate. destruct Hplate as (c & a & -> & Hc).
  apply split_words_first in Hsplit. destruct Hsplit as (_ & rest & Hrest).
  simpl in Hrest. unfold parse_command, command_regex. rewrite Hrest. simpl.
  destruct (span nonspace (drop_while isspace (a ++ rest))) as [arg tail].
  assert (is_char "?" c = false) as ->; [|reflexivity].
  unfold is_char. destruct (ascii_dec c "?") as [-> |]; [discriminate|].
  reflexivity.
Qed.

(** ** The line handlers *)

Lemma written_app_nothing_r (w : written) : written_app w nothing = w.
Proof. destruct w. unfold written_app. simpl. now rewrite !app_nil_r. Qed.

Lemma written_app_assoc (a b c : written) :
  written_app a (written_app b c) = written_app (written_app a b) c.
Proof. unfold written_app. simpl. now rewrite !app_assoc. Qed.

Lemma for_each_cout {A} (show : A -> std_string) (l : list A) (s : state_t) :
  for_each l (fun entry => cout_line (show entry)) s
  = (tt, s, mk_written (map show l) []).
Proof.
  induction l as [|x l IH]; [reflexivity|].
  cbn [for_each]. unfold bind.
  change (cout_line (show x) s) with (tt, s, mk_written [show x] []).
  cbn beta iota. rewrite IH. reflexivity.
Qed.

Lemma handle_command_run (n : line_no_t) (q : line_t) (cr : option road_t)
    (cv : option vehicle_t) (s : state_t) :
  parse_command q = Some (cr, cv) ->
  handle_command (n, q) s =
  (true, s,
   mk_written
     (match cr, cv with None, None => dump s | _, _ => [] end
      ++ match cv with
         | Some v => found_line vehicle_line (map_find v (vehicles_data s))
         | None => []
         end
      ++ match cr with
         | Some r => found_line road_line (map_find r (roads_data s))
         | None => []
         end)
     []).
Proof.
  intros Hq. unfold handle_command. cbn [snd]. rewrite Hq.
  unfold bind, get_state, ret, dump.
  destruct cr as [r|], cv as [v|]; simpl;
    rewrite ?for_each_cout;
    repeat match goal with
      | |- context [map_find ?k ?m] => destruct (map_find k m)
      end;
    unfold written_app, nothing, found_line; simpl;
    rewrite ?app_nil_r; reflexivity.
Qed.

Lemma parse_command_nonempty (q : line_t) (cmd : command_desc_t) :
  parse_command q = Some cmd -> q <> [].
Proof. intros Hq ->. discriminate. Qed.

Lemma parse_info_nonempty (l : line_t) (info : info_desc_t) :
  parse_info l = Some info -> l <> [].
Proof. intros Hl ->. discriminate. Qed.

Lemma handle_line_blank (n : line_no_t) (s : state_t) :
  handle_line (n, []) s = (tt, s, nothing).
Proof. reflexivity. Qed.

Lemma handle_line_command (n : line_no_t) (q : line_t) (cr : option road_t)
    (cv : option vehicle_t) (s : state_t) :
  parse_command q = Some (cr, cv) ->
  handle_line (n, q) s
  = (tt, s, written_app (snd (handle_command (n, q) s)) nothing).
Proof.
  intros Hq. pose proof (parse_command_nonempty _ _ Hq) as Hne.
  unfold handle_line. cbn [snd]. destruct q as [|c q]; [contradiction|].
  unfold bind. rewrite (handle_command_run _ _ _ _ _ Hq). reflexivity.
Qed.

Lemma handle_line_info (n : line_no_t) (l : line_t) (v : vehicle_t)
    (r : road_t) (d : distance_t) (s : state_t) :
  parse_info l = Some (v, r, d) ->
  handle_line (n, l) s =
  (tt, snd (add_entry s v r d (n, l)),
   mk_written [] (found_line error_text (fst (add_entry s v r d (n, l))))).
Proof.
  intros Hi. pose proof (parse_info_nonempty _ _ Hi) as Hne.
  pose proof (parse_info_not_command _ _ Hi) as Hc.
  unfold handle_line. cbn [snd]. destruct l as [|c l]; [contradiction|].
  unfold handle_command, handle_info, on_state. unfold bind, ret. cbn [snd].
  rewrite Hc, Hi.
  destruct (add_entry _ _ _ _ _) as [[e|] s']; reflexivity.
Qed.

Lemma handle_line_malformed (n : line_no_t) (l : line_t) (s : state_t) :
  l <> [] -> parse_command l = None -> parse_info l = None ->
  handle_line (n, l) s = (tt, s, mk_written [] [error_text (n, l)]).
Proof.
  intros Hne Hc Hi.
  unfold handle_line. cbn [snd]. destruct l as [|c l]; [contradiction|].
  unfold handle_command, handle_info. unfold bind, ret. cbn [snd].
  rewrite Hc, Hi. reflexivity.
Qed.

Lemma handle_lines_app (n : line_no_t) (l1 l2 : list line_t) (s : state_t) :
  handle_lines n (l1 ++ l2) s =
  let '(_, s1, w1) := handle_lines n l1 s in
  let '(u, s2, w2) := handle_lines (line_no_after n l1) l2 s1 in
  (u, s2, written_app w1 w2).
Proof.
  revert n s. induction l1 as [|l l1 IH]; intros n s; simpl.
  - destruct (handle_lines n l2 s) as [[u s2] [o e]]. reflexivity.
  - unfold bind.
    destruct (handle_line (int_add n 1, l) s) as [[u0 s0] w0].
    rewrite IH.
    destruct (handle_lines (int_add n 1) l1 s0) as [[u1 s1] w1].
    destruct (handle_lines (line_no_after (int_add n 1) l1) l2 s1)
      as [[u2 s2] w2].
    now rewrite written_app_assoc.
Qed.

Lemma run_lines_app (l1 l2 : list line_t) :
  run_lines (l1 ++ l2) =
  let (s1, w1) := run_lines l1 in
  let '(_, s2, w2) := handle_lines (line_no_after 0 l1) l2 s1 in
  (s2, written_app w1 w2).
Proof.
  unfold run_lines. rewrite handle_lines_app.
  destruct (handle_lines 0 l1 empty_state) as [[u1 s1] w1].
  destruct (handle_lines (line_no_after 0 l1) l2 s1) as [[u2 s2] w2].
  reflexivity.
Qed.

Lemma handle_all_run_lines (cin : std_string) :
  handle_all cin = snd (run_lines (getlines [] cin)).
Proof.
  unfold handle_all, run_lines.
  now destruct (handle_lines 0 (getlines [] cin) empty_state) as [[u s] w].
Qed.

(** ** The ledger stays sorted *)

Lemma StronglySorted_weaken {A} (R R' : A -> A -> Prop) (l : list A) :
  (forall a b, R a b -> R' a b) -> StronglySorted R l -> StronglySorted R' l.
Proof.
  intros HR. induction 1 as [|a l Hs IH Hall]; constructor; auto.
  eapply Forall_impl; [|exact Hall]. auto.
Qed.

Lemma add_distance_sorted {K} `{KeyOrderLaws K} (k : K) (d : distance_t)
    (m : std_map K distance_t) :
  map_sorted m -> map_sorted (add_distance k d m).
Proof. apply map_set_sorted. Qed.

Lemma by_type_sorted (v : vehicle_t) (vd : vehicles_data_t) :
  Forall (fun entry => map_sorted (snd entry)) vd ->
  map_sorted (map_get [] v vd).
Proof.
  intros Hall. unfold map_get.
  destruct (map_find _ _) as [[k inner]|] eqn:Hfind.
  - apply map_find_In in Hfind.
    rewrite Forall_forall in Hall. exact (Hall _ Hfind).
  - constructor.
Qed.

Lemma add_entry_sorted (s : state_t) (v : vehicle_t) (r : road_t)
    (d : distance_t) (l : line_desc_t) :
  ledger_sorted s -> ledger_sorted (snd (add_entry s v r d l)).
Proof.
  intros (Hv & Hin & Hr & Hn). unfold add_entry, ledger_sorted.
  destruct (map_find _ _) as [[k [[r0 d0] l0]]|];
    [destruct (road_eq_dec r0 r)|];
    cbn [snd vehicles_data roads_data not_finished].
  - split; [|split; [|split]].
    + now apply map_set_sorted.
    + apply map_set_values_Forall; [|exact Hin]. cbn [snd].
      apply add_distance_sorted. now apply by_type_sorted.
    + now apply add_distance_sorted.
    + now apply map_erase_sorted.
  - repeat split; auto. now apply map_set_sorted.
  - repeat split; auto. now apply map_set_sorted.
Qed.

Lemma handle_line_state (ld : line_desc_t) (s : state_t) :
  snd (fst (handle_line ld s)) = s
  \/ exists v r d, snd (fst (handle_line ld s)) = snd (add_entry s v r d ld).
Proof.
  destruct ld as [n l]. destruct l as [|c l]; [now left|].
  destruct (parse_command (c :: l)) as [[cr cv]|] eqn:Hc.
  - left. now rewrite (handle_line_command _ _ _ _ _ Hc).
  - destruct (parse_info (c :: l)) as [[[v r] d]|] eqn:Hi.
    + right. exists v, r, d. now rewrite (handle_line_info _ _ _ _ _ _ Hi).
    + left. rewrite handle_line_malformed; auto. discriminate.
Qed.

Lemma handle_lines_sorted (lines : list line_t) (n : line_no_t) (s : state_t) :
  ledger_sorted s -> ledger_sorted (snd (fst (handle_lines n lines s))).
Proof.
  revert n s. induction lines as [|l lines IH]; intros n s Hs; [exact Hs|].
  cbn [handle_lines]. unfold bind.
  pose proof (handle_line_state (int_add n 1, l) s) as Hstep.
  destruct (handle_line (int_add n 1, l) s) as [[u s1] w1]. simpl in Hstep.
  assert (ledger_sorted s1) as Hs1.
  { destruct Hstep as [-> | (v & r & d & ->)]; auto using add_entry_sorted. }
  specialize (IH (int_add n 1) s1 Hs1).
  destruct (handle_lines (int_add n 1) lines s1) as [[u2 s2] w2]. exact IH.
Qed.

Lemma empty_state_sorted : ledger_sorted empty_state.
Proof. repeat split; constructor. Qed.

Lemma run_lines_sorted (lines : list line_t) :
  ledger_sorted (fst (run_lines lines)).
Proof.
  unfold run_lines.
  pose proof (handle_lines_sorted lines 0 empty_state empty_state_sorted) as H.
  destruct (handle_lines 0 lines empty_state) as [[u s] w]. exact H.
Qed.

Lemma type_order_spec (a b : road_type_t) : key_lt a b -> type_before a b.
Proof.
  unfold key_lt, key_cmp, ascii_order, type_before.
  rewrite ascii_compare_spec. now rewrite Z.compare_lt_iff.
Qed.

(** C5: a command line, whatever it asks for, leaves the ledger as it
    found it; and two queries without argument issued one after the other
    print the same report. *)
Theorem queries_read_only (s : state_t) (n : line_no_t) (q : line_t)
    (cmd : command_desc_t) (pre : list line_t) (q1 q2 : line_t) :
  parse_command q = Some cmd ->
  parse_command q1 = Some (None, None) ->
  parse_command q2 = Some (None, None) ->
  (exists out, handle_command (n, q) s = (true, s, mk_written out []))
  /\ (let (s0, w0) := run_lines pre in
      run_lines (pre ++ [q1]) =
        (s0, written_app w0 (mk_written (dump s0) []))
      /\ run_lines (pre ++ [q1; q2]) =
        (s0, written_app w0 (mk_written (dump s0 ++ dump s0) []))).
Proof.
  intros Hq Hq1 Hq2. split.
  - destruct cmd as [cr cv].
    rewrite (handle_command_run _ _ _ _ _ Hq). eauto.
  - rewrite !run_lines_app.
    destruct (run_lines pre) as [s0 w0].
    cbn [handle_lines]. unfold bind.
    rewrite (handle_line_command _ _ _ _ _ Hq1).
    rewrite (handle_line_command _ _ _ _ _ Hq2).
    rewrite (handle_command_run _ _ _ _ _ Hq1).
    rewrite (handle_command_run _ _ _ _ _ Hq2).
    unfold ret, written_app, nothing. simpl.
    rewrite !app_nil_r. split; reflexivity.
Qed.

(** ** Lines and their diagnostics *)

Lemma parse_command_all_space (line : line_t) :
  forallb isspace line = true -> parse_command line = None.
Proof.
  intros Hs. unfold parse_command, command_regex.
  now rewrite (drop_while_all _ _ Hs).
Qed.

Lemma parse_info_all_space (line : line_t) :
  forallb isspace line = true -> parse_info line = None.
Proof.
  intros Hs. unfold parse_info, split_args.
  now rewrite (split_words_all_space _ Hs).
Qed.

Lemma parse_command_both (line : line_t) (arg : std_string) (road : road_t)
    (vehicle : vehicle_t) :
  command_regex line = Some arg ->
  parse_road arg = Some road ->
  parse_vehicle arg = Some vehicle ->
  parse_command line = Some (Some road, Some vehicle).
Proof.
  intros Hline Hroad Hvehicle. unfold parse_command. rewrite Hline.
  destruct arg as [|c arg]; [discriminate|].
  now rewrite Hroad, Hvehicle.
Qed.

(** C7: a line that is not empty, is not a command and is not a crossing
    record makes the program write the single diagnostic
    [Error in line <n>: <line>] to the error stream and nothing to the
    output, leaves the ledger unchanged, and the loop goes on with the
    next line. *)
Theorem malformed_line_reported (n : line_no_t) (line : line_t)
    (rest : list line_t) (s : state_t) :
  line <> [] ->
  parse_command line = None ->
  parse_info line = None ->
  handle_line (int_add n 1, line) s =
    (tt, s,
     mk_written []
       [lit "Error in line " ++ show_int (int_add n 1) ++ lit ": " ++ line])
  /\ handle_lines n (line :: rest) s =
     let '(u, s', w) := handle_lines (int_add n 1) rest s in
     (u, s', written_app (mk_written [] [error_text (int_add n 1, line)]) w).
Proof.
  intros Hne Hc Hi.
  split; [now apply handle_line_malformed|].
  cbn [handle_lines]. unfold bind.
  rewrite (handle_line_malformed _ _ _ Hne Hc Hi). reflexivity.
Qed.

(** C9: a line that is not empty and holds whitespace only is reported
    with the diagnostic [Error in line <n>: <line>] and leaves the ledger
    unchanged; the empty line is passed over without a word. *)
Theorem whitespace_line_reported (n : line_no_t) (line : line_t)
    (s : state_t) :
  line <> [] ->
  forallb isspace line = true ->
  handle_line (n, line) s =
    (tt, s,
     mk_written []
       [lit "Error in line " ++ show_int n ++ lit ": " ++ line])
  /\ handle_line (n, []) s = (tt, s, nothing).
Proof.
  intros Hne Hs. split; [|reflexivity].
  apply handle_line_malformed; auto using parse_command_all_space,
    parse_info_all_space.
Qed.

(** ** Markers *)

Lemma parse_distance_fits (token junction : std_string) (d : ascii) :
  distance_regex token = Some (junction, d) ->
  0 <= decimal_value junction ->
  0 <= digit_value d ->
  10 * decimal_value junction + digit_value d <= INT_MAX ->
  parse_distance token = Some (10 * decimal_value junction + digit_value d).
Proof.
  intros Hre Hj Hd Hfit. unfold parse_distance, stoi. rewrite Hre.
  destruct (Z.leb_spec (decimal_value junction) INT_MAX) as [_ | Hgt];
    [|unfold INT_MAX in *; lia].
  unfold int_add, int_mul.
  rewrite (wrap_int_small (decimal_value junction * 10))
    by (unfold in_int, INT_MIN, INT_MAX in *; lia).
  rewrite wrap_int_small by (unfold in_int, INT_MIN, INT_MAX in *; lia).
  f_equal. lia.
Qed.

Lemma parse_distance_too_large (token junction : std_string) (d : ascii) :
  distance_regex token = Some (junction, d) ->
  INT_MAX < decimal_value junction ->
  parse_distance token = None.
Proof.
  intros Hre Hbig. unfold parse_distance, stoi. rewrite Hre.
  destruct (Z.leb_spec (decimal_value junction) INT_MAX); [lia | reflexivity].
Qed.

(** A record whose marker has an integer part beyond [int] is not parsed,
    and its line is reported. *)
Lemma oversized_marker_reported (n : line_no_t) (line : line_t)
    (a0 a1 a2 junction : std_string) (d : ascii) (s : state_t) :
  split_args line = [a0; a1; a2] ->
  distance_regex a2 = Some (junction, d) ->
  INT_MAX < decimal_value junction ->
  parse_command line = None ->
  handle_line (n, line) s = (tt, s, mk_written [] [error_text (n, line)]).
Proof.
  intros Hsplit Hre Hbig Hc.
  assert (parse_info line = None) as Hi.
  { unfold parse_info. rewrite Hsplit.
    rewrite (parse_distance_too_large _ _ _ Hre Hbig).
    now destruct (parse_vehicle a0), (parse_road a1). }
  apply handle_line_malformed; auto.
  intros ->. discriminate.
Qed.

Example run_oversized_marker :
  handle_all (lit "ABC123 A1 2147483648,0")
  = mk_written [] [lit "Error in line 1: ABC123 A1 2147483648,0"].
Proof. vm_compute. reflexivity. Qed.

(** C10, where the code departs from it: the marker [214748365,0] matches
    the marker pattern and its integer part fits an [int], so [std::stoi]
    does not throw; the product by ten does not fit, and [parse_distance]
    returns a wrapped, negative number of tenths instead of
    [10 * 214748365 + 0], and the crossing record that carries the marker
    is accepted. *)
Theorem parse_distance_product_overflows :
  matches marker_pattern (lit "214748365,0")
  /\ distance_regex (lit "214748365,0") = Some (lit "214748365", "0")
  /\ stoi (lit "214748365") = Some 214748365
  /\ 10 * 214748365 + 0 = 2147483650
  /\ parse_distance (lit "214748365,0") = Some (-2147483646)
  /\ parse_info (lit "ABC123 A1 214748365,0")
     = Some (lit "ABC123", (1, "A"), -2147483646).
Proof.
  split.
  - apply marker_pattern_correct. eexists. reflexivity.
  - vm_compute. repeat split.
Qed.

(** ** Concrete runs *)

Example run_scenario_segment :
  handle_all (lit scenario_segment) = mk_written [lit "ABC123 A 5,0"] [].
Proof. vm_compute. reflexivity. Qed.

Example run_scenario_conflict :
  handle_all (lit scenario_conflict)
  = mk_written [] [lit "Error in line 1: ABC123 A1 10,0"].
Proof. vm_compute. reflexivity. Qed.

Example run_traffic_dump :
  cout (snd (handle_command (8, lit "?") (fst (run_lines traffic))))
  = map lit ["A12 A 2,3"; "ABC S 1,5"; "S3 1,0"; "A12 2,3"; "S12 0,5"]%string.
Proof. vm_compute. reflexivity. Qed.

(** C1 at a concrete input: the scenario of one closed segment. *)
Lemma add_entry_pair_same_road_witness :
  map_find (lit "ABC123") (not_finished empty_state) = None
  /\ pair_closed empty_state (lit "ABC123") (1, "A") 100 150
       (1, lit "ABC123 A1 10,0") (2, lit "ABC123 A1 15,0").
Proof.
  split; [reflexivity|].
  apply (add_entry_pair_same_road empty_state (lit "ABC123") (1, "A") 100 150).
  - reflexivity.
  - vm_compute. discriminate.
  - vm_compute. split; discriminate.
  - vm_compute. split; discriminate.
Defined.

(** C1 as stated fails when a total passes the largest [int]: on a ledger
    whose total for A1 is 2147483647, a further segment of one tenth on A1
    does not leave the total one higher. *)
Lemma add_entry_pair_total_overflows :
  map_find (lit "AAA") (not_finished full_ledger) = None
  /\ road_total full_ledger (1, "A") = INT_MAX
  /\ ~ pair_closed full_ledger (lit "AAA") (1, "A") 0 1
         (3, lit "AAA A1 0,0") (4, lit "AAA A1 0,1").
Proof.
  vm_compute. split; [reflexivity|]. split; [reflexivity|].
  intros (_ & _ & Hroad & _). discriminate.
Qed.

(** C2 at a concrete input: the scenario of the conflicting record. *)
Lemma add_entry_pair_other_road_witness :
  let (e1, s1) :=
    add_entry empty_state (lit "ABC123") (1, "A") 100
      (1, lit "ABC123 A1 10,0") in
  let (e2, s2) :=
    add_entry s1 (lit "ABC123") (2, "S") 50 (2, lit "ABC123 S2 5,0") in
  e1 = None /\ e2 = Some (1, lit "ABC123 A1 10,0")
  /\ map_find (lit "ABC123") (not_finished s2)
     = Some (lit "ABC123", ((2, "S"), 50, (2, lit "ABC123 S2 5,0")))
  /\ vehicles_data s2 = vehicles_data empty_state
  /\ roads_data s2 = roads_data empty_state.
Proof.
  apply (add_entry_pair_other_road empty_state (lit "ABC123") (1, "A")
           (2, "S") 100 50).
  - reflexivity.
  - discriminate.
Defined.

(** C4 as stated fails: closing a segment changes the totals and the
    pending entries in the same call. *)
Lemma add_entry_changes_both_groups :
  let s := fst (run_lines [lit "ABC123 A1 10,0"]) in
  ~ one_group_changed s
      (snd (add_entry s (lit "ABC123") (1, "A") 150
              (2, lit "ABC123 A1 15,0"))).
Proof.
  vm_compute. intros [(_ & _ & Hroads) | (Hpending & _)]; discriminate.
Qed.

(** C5 at a concrete input: a road query, and the report asked twice. *)
Lemma queries_read_only_witness :
  (exists out,
     handle_command (9, lit "? S3") (fst (run_lines traffic))
     = (true, fst (run_lines traffic), mk_written out []))
  /\ (let (s0, w0) := run_lines traffic in
      run_lines (traffic ++ [lit "?"]) =
        (s0, written_app w0 (mk_written (dump s0) []))
      /\ run_lines (traffic ++ [lit "?"; lit " ? "]) =
        (s0, written_app w0 (mk_written (dump s0 ++ dump s0) []))).
Proof.
  apply (queries_read_only (fst (run_lines traffic)) 9 (lit "? S3")
           (Some (3, "S"), None) traffic (lit "?") (lit " ? "));
    reflexivity.
Defined.

(** C7 at a concrete input: the line [hello world] as line 1. *)
Lemma malformed_line_reported_witness :
  handle_line (int_add 0 1, lit "hello world") empty_state
  = (tt, empty_state, mk_written [] [lit "Error in line 1: hello world"]).
Proof.
  refine (proj1 (malformed_line_reported 0 (lit "hello world") []
                   empty_state _ _ _)).
  - discriminate.
  - reflexivity.
  - reflexivity.
Defined.

Example run_query_road_and_plate :
  handle_command (8, lit "? A12") (fst (run_lines traffic))
  = (true, fst (run_lines traffic),
     mk_written [lit "A12 A 2,3"; lit "A12 2,3"] []).
Proof. vm_compute. reflexivity. Qed.

(** C9 at a concrete input: a line of three spaces. *)
Lemma whitespace_line_reported_witness :
  handle_line (4, lit "   ") empty_state
  = (tt, empty_state, mk_written [] [lit "Error in line 4:    "]).
Proof.
  refine (proj1 (whitespace_line_reported 4 (lit "   ") empty_state _ _)).
  - discriminate.
  - reflexivity.
Defined.

(** * Further properties *)

(** ** Decimal numerals *)

Lemma decimal_value_fold (s : std_string) :
  decimal_value s = fold_left decimal_step s 0.
Proof. reflexivity. Qed.

Lemma uint_chars_acc (u : Decimal.uint) (acc : positive) :
  fold_left decimal_step (uint_chars u) (Z.pos acc)
  = Z.pos (Pos.of_uint_acc u acc).
Proof.
  revert acc. unfold uint_chars.
  induction u as [|u IH|u IH|u IH|u IH|u IH|u IH|u IH|u IH|u IH|u IH];
    intros acc; cbn [NilEmpty.string_of_uint list_ascii_of_string fold_left
                     Pos.of_uint_acc];
    try reflexivity;
    rewrite <- IH; f_equal; unfold decimal_step;
    match goal with
    | |- context [digit_value ?c] =>
        let v := eval vm_compute in (digit_value c) in
        change (digit_value c) with v
    end; lia.
Qed.

Lemma uint_chars_value (u : Decimal.uint) :
  decimal_value (uint_chars u) = Z.of_N (Pos.of_uint u).
Proof.
  rewrite decimal_value_fold. unfold uint_chars.
  induction u as [|u IH|u IH|u IH|u IH|u IH|u IH|u IH|u IH|u IH|u IH];
    cbn [NilEmpty.string_of_uint list_ascii_of_string fold_left Pos.of_uint];
    try reflexivity; try exact IH;
    apply (uint_chars_acc u).
Qed.

Lemma uint_chars_digits (u : Decimal.uint) :
  forallb isdigit (uint_chars u) = true.
Proof.
  unfold uint_chars.
  induction u; simpl; try reflexivity; exact IHu.
Qed.

Lemma show_int_nonneg (z : Z) :
  0 <= z -> show_int z = uint_chars (N.to_uint (Z.to_N z)).
Proof.
  intros Hz. unfold show_int, uint_chars.
  destruct z as [|p|p]; [reflexivity| |lia].
  simpl. pose proof (Unsigned.to_uint_nonnil p) as Hn.
  destruct (Pos.to_uint p); try reflexivity. contradiction.
Qed.

Lemma decimal_value_show_int (z : Z) :
  0 <= z -> decimal_value (show_int z) = z.
Proof.
  intros Hz. rewrite (show_int_nonneg _ Hz), uint_chars_value.
  destruct z as [|p|p]; [reflexivity| |lia].
  simpl Z.to_N. unfold N.to_uint. rewrite DecimalPos.Unsigned.of_to.
  reflexivity.
Qed.

Lemma show_int_digits (z : Z) :
  0 <= z -> forallb isdigit (show_int z) = true.
Proof.
  intros Hz. rewrite (show_int_nonneg _ Hz). apply uint_chars_digits.
Qed.

Lemma isdigit_cases (c : ascii) :
  isdigit c = true ->
  In c ["0"; "1"; "2"; "3"; "4"; "5"; "6"; "7"; "8"; "9"].
Proof.
  unfold isdigit, char_in. rewrite andb_true_iff, !N.leb_le.
  rewrite <- (ascii_N_embedding c) at 3.
  change (N_of_ascii "0") with 48%N. change (N_of_ascii "9") with 57%N.
  intros [Hlo Hhi].
  assert (In (N_of_ascii c) [48; 49; 50; 51; 52; 53; 54; 55; 56; 57]%N) as Hin.
  { simpl. lia. }
  simpl in Hin.
  repeat (destruct Hin as [<- | Hin]; [simpl; tauto|]). contradiction.
Qed.

Lemma isdigit_value (c : ascii) :
  isdigit c = true -> 0 <= digit_value c <= 9.
Proof.
  unfold isdigit, char_in, digit_value. rewrite andb_true_iff, !N.leb_le.
  change (N_of_ascii "0") with 48%N. change (N_of_ascii "9") with 57%N. lia.
Qed.

Lemma isdigit19_value (c : ascii) :
  isdigit19 c = true -> 1 <= digit_value c <= 9.
Proof.
  unfold isdigit19, char_in, digit_value. rewrite andb_true_iff, !N.leb_le.
  change (N_of_ascii "1") with 49%N. change (N_of_ascii "9") with 57%N. lia.
Qed.

Lemma uint_chars_digit_uint (c : ascii) (u : Decimal.uint) :
  isdigit c = true -> uint_chars (digit_uint c u) = c :: uint_chars u.
Proof.
  intros Hc. apply isdigit_cases in Hc. simpl in Hc.
  repeat (destruct Hc as [<- | Hc]; [reflexivity|]). contradiction.
Qed.

Lemma uint_chars_chars_uint (s : std_string) :
  forallb isdigit s = true -> uint_chars (chars_uint s) = s.
Proof.
  induction s as [|c s IH]; simpl; [reflexivity|].
  rewrite andb_true_iff. intros [Hc Hs].
  rewrite (uint_chars_digit_uint _ _ Hc). now rewrite IH.
Qed.

Lemma chars_uint_normal (s : std_string) :
  forallb isdigit s = true -> whole_part_ok s = true ->
  Decimal.unorm (chars_uint s) = chars_uint s.
Proof.
  destruct s as [|c s]; [discriminate|]. simpl.
  rewrite andb_true_iff. intros [Hc _].
  apply isdigit_cases in Hc. simpl in Hc.
  destruct Hc as [<- | Hc].
  - destruct s; [reflexivity | discriminate].
  - intros _. repeat (destruct Hc as [<- | Hc]; [reflexivity|]). contradiction.
Qed.

Lemma decimal_value_nonneg (s : std_string) :
  forallb isdigit s = true -> 0 <= decimal_value s.
Proof.
  intros Hs. rewrite <- (uint_chars_chars_uint _ Hs), uint_chars_value. lia.
Qed.

(** Printing the value of a run of digits without leading zero gives the
    digits back. *)
Lemma show_int_decimal_value (s : std_string) :
  forallb isdigit s = true -> whole_part_ok s = true ->
  show_int (decimal_value s) = s.
Proof.
  intros Hs Hok.
  rewrite (show_int_nonneg _ (decimal_value_nonneg _ Hs)).
  rewrite <- (uint_chars_chars_uint _ Hs) at 1.
  rewrite uint_chars_value, N2Z.id, DecimalPos.Unsigned.to_of.
  rewrite (chars_uint_normal _ Hs Hok). now apply uint_chars_chars_uint.
Qed.

Lemma uint_chars_normal (u : Decimal.uint) :
  Decimal.unorm u = u -> whole_part_ok (uint_chars u) = true.
Proof.
  destruct u; try reflexivity.
  - discriminate.
  - unfold Decimal.unorm. rewrite nzhead_D0.
    destruct (Decimal.nzhead u) eqn:Hnz; intros E;
      try (exfalso; apply (nzhead_nonzero u u); congruence);
      try discriminate.
    injection E as <-. reflexivity.
Qed.

Lemma show_int_normal (z : Z) : 0 <= z -> whole_part_ok (show_int z) = true.
Proof.
  intros Hz. rewrite (show_int_nonneg _ Hz). apply uint_chars_normal.
  rewrite <- (DecimalN.Unsigned.of_to (Z.to_N z)) at 2.
  symmetry. apply DecimalN.Unsigned.to_of.
Qed.

Lemma show_int_digit (c : ascii) :
  isdigit c = true -> show_int (digit_value c) = [c].
Proof.
  intros Hc. apply isdigit_cases in Hc. simpl in Hc.
  repeat (destruct Hc as [<- | Hc]; [reflexivity|]). contradiction.
Qed.

Lemma digit_of_value (r : Z) :
  0 <= r <= 9 -> exists c, show_int r = [c] /\ isdigit c = true
                           /\ digit_value c = r.
Proof.
  intros Hr.
  assert (In r [0; 1; 2; 3; 4; 5; 6; 7; 8; 9]) as Hin by (simpl; lia).
  simpl in Hin.
  repeat (destruct Hin as [<- | Hin];
          [eexists; repeat split; reflexivity|]).
  contradiction.
Qed.

(** ** Roads *)

Lemma decimal_fold_bounds (ds : std_string) (acc : Z) :
  forallb isdigit ds = true ->
  acc * 10 ^ Z.of_nat (length ds) <= fold_left decimal_step ds acc
  /\ fold_left decimal_step ds acc
     <= (acc + 1) * 10 ^ Z.of_nat (length ds) - 1.
Proof.
  revert acc. induction ds as [|c ds IH]; intros acc; simpl fold_left.
  - intros _. simpl. lia.
  - simpl forallb. rewrite andb_true_iff. intros [Hc Hds].
    specialize (IH (decimal_step acc c) Hds).
    apply isdigit_value in Hc. unfold decimal_step in *.
    replace (Z.of_nat (length (c :: ds))) with (Z.succ (Z.of_nat (length ds)))
      by (simpl length; lia).
    rewrite Z.pow_succ_r by lia.
    assert (0 < 10 ^ Z.of_nat (length ds)) by (apply Z.pow_pos_nonneg; lia).
    nia.
Qed.

Lemma decimal_value_cons (c : ascii) (ds : std_string) :
  decimal_value (c :: ds) = fold_left decimal_step ds (digit_value c).
Proof. reflexivity. Qed.

Lemma isdigit_plate_char (c : ascii) :
  isdigit c = true -> is_plate_char c = true.
Proof. unfold is_plate_char, isdigit. intros ->. apply orb_true_r. Qed.

Lemma road_type_plate_char (t : ascii) :
  is_road_type t = true -> is_plate_char t = true.
Proof.
  unfold is_road_type. intros Ht. apply orb_prop in Ht.
  rewrite !is_char_true in Ht. destruct Ht as [-> | ->]; reflexivity.
Qed.

(** What a successful [parse_road] says of its argument. *)
Lemma parse_road_inv (s : std_string) (r : road_t) :
  parse_road s = Some r ->
  exists t d ds,
    s = t :: d :: ds /\ r = (decimal_value (d :: ds), t)
    /\ is_road_type t = true /\ isdigit19 d = true
    /\ (length ds <= 2)%nat /\ forallb isdigit ds = true.
Proof.
  unfold parse_road. destruct (road_regex s) as [[g1 g2]|] eqn:Hre;
    [|discriminate].
  intros [= <-]. apply road_regex_correct in Hre.
  destruct Hre as (-> & H1 & H2).
  apply matches_road_type in H1. destruct H1 as (t & -> & Ht).
  apply matches_road_number in H2.
  destruct H2 as (d & ds & -> & Hd & Hl & Hds).
  exists t, d, ds. repeat split; auto.
Qed.

Lemma road_number_bounds (d : ascii) (ds : std_string) :
  isdigit19 d = true -> (length ds <= 2)%nat -> forallb isdigit ds = true ->
  1 <= decimal_value (d :: ds) <= 999.
Proof.
  intros Hd Hl Hds. rewrite decimal_value_cons.
  pose proof (decimal_fold_bounds ds (digit_value d) Hds) as [Hlo Hhi].
  apply isdigit19_value in Hd.
  assert (0 < 10 ^ Z.of_nat (length ds)) by (apply Z.pow_pos_nonneg; lia).
  assert (10 ^ Z.of_nat (length ds) <= 10 ^ 2)
    by (apply Z.pow_le_mono_r; lia).
  nia.
Qed.

Lemma road_type_cases (t : ascii) :
  is_road_type t = true -> t = "A" \/ t = "S".
Proof.
  unfold is_road_type. intros Ht. apply orb_prop in Ht.
  now rewrite !is_char_true in Ht.
Qed.

Lemma parse_road_valid (s : std_string) (r : road_t) :
  parse_road s = Some r -> road_valid r.
Proof.
  intros Hr. apply parse_road_inv in Hr.
  destruct Hr as (t & d & ds & -> & -> & Ht & Hd & Hl & Hds).
  split; [now apply road_number_bounds | now apply road_type_cases].
Qed.

(** X1: a road that [parse_road] returns has a number from 1 to 999 and
    the type A or S. *)
Theorem parse_road_range (s : std_string) (r : road_t) :
  parse_road s = Some r ->
  1 <= fst r <= 999 /\ (snd r = "A" \/ snd r = "S").
Proof.
  intros Hr. apply parse_road_inv in Hr.
  destruct Hr as (t & d & ds & -> & -> & Ht & Hd & Hl & Hds).
  cbn [fst snd]. split.
  - now apply road_number_bounds.
  - now apply road_type_cases.
Qed.

Lemma parse_road_range_witness :
  1 <= fst (12, "S") <= 999
  /\ (snd (12, "S") = "A" \/ snd (12, "S") = "S").
Proof. apply (parse_road_range (lit "S12") (12, "S")). reflexivity. Defined.

(** X2: printing a road that [parse_road] returned gives back the text it
    was parsed from. *)
Theorem parse_road_show_road (s : std_string) (r : road_t) :
  parse_road s = Some r -> show_road r = s.
Proof.
  intros Hr. apply parse_road_inv in Hr.
  destruct Hr as (t & d & ds & -> & -> & Ht & Hd & Hl & Hds).
  unfold show_road. simpl fst. simpl snd. simpl app. f_equal.
  apply show_int_decimal_value.
  - simpl. now rewrite (isdigit19_isdigit _ Hd).
  - simpl. rewrite Hd. apply orb_true_r.
Qed.

Lemma parse_road_show_road_witness :
  show_road (999, "A") = lit "A999".
Proof. apply (parse_road_show_road (lit "A999") (999, "A")). reflexivity. Defined.

(** X3: a road with a number from 1 to 999 and the type A or S, once
    printed, is parsed back to itself. *)
Theorem show_road_parse_road (n : road_num_t) (t : road_type_t) :
  1 <= n <= 999 -> t = "A" \/ t = "S" ->
  parse_road (show_road (n, t)) = Some (n, t).
Proof.
  intros Hn Ht. unfold show_road. simpl fst. simpl snd. simpl app.
  assert (0 <= n) as Hn0 by lia.
  pose proof (show_int_digits n Hn0) as Hdig.
  pose proof (show_int_normal n Hn0) as Hok.
  pose proof (decimal_value_show_int n Hn0) as Hval.
  destruct (show_int n) as [|d ds]; [discriminate|].
  simpl in Hdig. apply andb_prop in Hdig. destruct Hdig as [Hd Hds].
  assert (isdigit19 d = true) as Hd19.
  { simpl in Hok. apply orb_prop in Hok. destruct Hok as [H0 | H19]; auto.
    apply andb_prop in H0. destruct H0 as [H0 Hnil].
    apply is_char_true in H0. subst d. destruct ds; [|discriminate].
    vm_compute in Hval. lia. }
  assert ((length ds <= 2)%nat) as Hl.
  { rewrite decimal_value_cons in Hval.
    pose proof (decimal_fold_bounds ds (digit_value d) Hds) as [Hlo _].
    apply isdigit19_value in Hd19.
    destruct (Nat.le_gt_cases (length ds) 2) as [|Hgt]; [assumption|].
    assert (10 ^ 3 <= 10 ^ Z.of_nat (length ds))
      by (apply Z.pow_le_mono_r; lia).
    nia. }
  assert (road_regex (t :: d :: ds) = Some ([t], d :: ds)) as Hre.
  { apply road_regex_correct. split; [reflexivity|]. split.
    - apply matches_road_type. exists t. split; [reflexivity|].
      unfold is_road_type. destruct Ht as [-> | ->]; reflexivity.
    - apply matches_road_number. exists d, ds. auto. }
  unfold parse_road. rewrite Hre. unfold stoul. now rewrite Hval.
Qed.

Lemma show_road_parse_road_witness :
  parse_road (show_road (7, "S")) = Some (7, "S").
Proof.
  apply (show_road_parse_road 7 "S"); [lia | right; reflexivity].
Defined.

(** X4: a text that is parsed as a road is also parsed as a plate exactly
    when the number of the road is at least 10; the road pattern and the
    plate pattern overlap there. *)
Theorem road_token_is_plate (s : std_string) (r : road_t) :
  parse_road s = Some r ->
  (parse_vehicle s = Some s <-> 10 <= fst r).
Proof.
  intros Hr. apply parse_road_inv in Hr.
  destruct Hr as (t & d & ds & -> & -> & Ht & Hd & Hl & Hds). simpl fst.
  rewrite decimal_value_cons.
  pose proof (decimal_fold_bounds ds (digit_value d) Hds) as [Hlo Hhi].
  pose proof (isdigit19_value _ Hd) as Hdv.
  unfold parse_vehicle, plate_regex. simpl forallb. simpl length.
  rewrite (road_type_plate_char _ Ht),
    (isdigit_plate_char _ (isdigit19_isdigit _ Hd)).
  assert (forallb is_plate_char ds = true) as ->.
  { rewrite forallb_forall in *. auto using isdigit_plate_char. }
  destruct ds as [|c ds]; simpl length in *; simpl Nat.leb.
  - cbn [fold_left]. split; [discriminate | lia].
  - assert (0 < 10 ^ Z.of_nat (length ds))
      by (apply Z.pow_pos_nonneg; lia).
    replace (Z.of_nat (S (length ds))) with (Z.succ (Z.of_nat (length ds)))
      in Hlo by lia.
    rewrite Z.pow_succ_r in Hlo by lia.
    destruct (Nat.leb_spec (length ds) 8); [|lia].
    split; [nia | reflexivity].
Qed.

Lemma road_token_is_plate_witness :
  parse_vehicle (lit "A12") = Some (lit "A12") <-> 10 <= fst (12, "A").
Proof. apply (road_token_is_plate (lit "A12") (12, "A")). reflexivity. Defined.

(** ** Markers *)

Lemma distance_value_split (q r : Z) :
  0 <= q -> 0 <= r <= 9 ->
  Z.quot (10 * q + r) 10 = q /\ Z.rem (10 * q + r) 10 = r.
Proof.
  intros Hq Hr.
  rewrite Z.quot_div_nonneg, Z.rem_mod_nonneg by lia.
  split.
  - symmetry. apply (Z.div_unique _ 10 q r); lia.
  - symmetry. apply (Z.mod_unique _ 10 q r); lia.
Qed.

Lemma parse_distance_value (s junction : std_string) (d : ascii) :
  distance_regex s = Some (junction, d) ->
  10 * decimal_value junction + digit_value d <= INT_MAX ->
  parse_distance s = Some (10 * decimal_value junction + digit_value d).
Proof.
  intros Hre Hfit. pose proof Hre as Hparts.
  apply distance_regex_correct in Hparts.
  destruct Hparts as (_ & Hj & Hd). apply matches_marker_whole in Hj.
  apply parse_distance_fits; auto.
  - apply decimal_value_nonneg, Hj.
  - apply isdigit_value, Hd.
Qed.

(** X8: a marker whose value in tenths fits an [int] is parsed to a
    non-negative distance, and printing that distance gives the marker
    back. *)
Theorem marker_parse_then_show (s junction : std_string) (d : ascii) :
  distance_regex s = Some (junction, d) ->
  10 * decimal_value junction + digit_value d <= INT_MAX ->
  exists x, parse_distance s = Some x /\ 0 <= x /\ show_distance x = s.
Proof.
  intros Hre Hfit. exists (10 * decimal_value junction + digit_value d).
  split; [now apply parse_distance_value|].
  apply distance_regex_correct in Hre. destruct Hre as (-> & Hj & Hd).
  apply matches_marker_whole in Hj. destruct Hj as [Hdig Hok].
  pose proof (decimal_value_nonneg _ Hdig) as Hq.
  pose proof (isdigit_value _ Hd) as Hr.
  split; [lia|]. unfold show_distance.
  destruct (distance_value_split _ _ Hq Hr) as [-> ->].
  rewrite (show_int_decimal_value _ Hdig Hok), (show_int_digit _ Hd).
  reflexivity.
Qed.

Lemma marker_parse_then_show_witness :
  exists x, parse_distance (lit "123,4") = Some x /\ 0 <= x
            /\ show_distance x = lit "123,4".
Proof.
  apply (marker_parse_then_show (lit "123,4") (lit "123") "4").
  - reflexivity.
  - vm_compute. discriminate.
Defined.

(** X9: a distance from 0 to [INT_MAX], once printed, is parsed back to
    itself. *)
Theorem show_distance_parse_distance (x : distance_t) :
  0 <= x <= INT_MAX -> parse_distance (show_distance x) = Some x.
Proof.
  intros Hx. unfold show_distance.
  assert (0 <= Z.quot x 10) as Hq by (apply Z.quot_pos; lia).
  assert (0 <= Z.rem x 10 <= 9) as Hr.
  { rewrite Z.rem_mod_nonneg by lia.
    pose proof (Z.mod_pos_bound x 10 ltac:(lia)). lia. }
  destruct (digit_of_value _ Hr) as (c & Hshow & Hc & Hcv).
  rewrite Hshow.
  assert (x = 10 * Z.quot x 10 + Z.rem x 10) as Hsplit
    by (apply Z.quot_rem'; lia).
  assert (distance_regex (show_int (Z.quot x 10) ++ lit "," ++ [c])
          = Some (show_int (Z.quot x 10), c)) as Hre.
  { apply distance_regex_correct. split; [reflexivity|]. split; [|exact Hc].
    apply matches_marker_whole.
    split; [now apply show_int_digits | now apply show_int_normal]. }
  rewrite (parse_distance_value _ _ _ Hre);
    rewrite (decimal_value_show_int _ Hq), Hcv.
  - now rewrite <- Hsplit.
  - rewrite <- Hsplit. lia.
Qed.

Lemma show_distance_parse_distance_witness :
  parse_distance (show_distance 1234) = Some 1234.
Proof.
  apply (show_distance_parse_distance 1234). unfold INT_MAX. lia.
Defined.

(** X7: [parse_distance] returns a distance exactly for the texts [D,d] of
    the marker pattern whose integer part [D] is at most [INT_MAX]. *)
Theorem parse_distance_accepts (s : std_string) :
  (exists x, parse_distance s = Some x)
  <-> exists junction d,
        s = junction ++ [","; d]
        /\ matches marker_pattern_whole junction
        /\ isdigit d = true
        /\ decimal_value junction <= INT_MAX.
Proof.
  unfold parse_distance, stoi. split.
  - intros (x & Hx).
    destruct (distance_regex s) as [[j d]|] eqn:Hre; [|discriminate].
    destruct (Z.leb_spec (decimal_value j) INT_MAX); [|discriminate].
    apply distance_regex_correct in Hre. destruct Hre as (-> & Hj & Hd).
    exists j, d. auto.
  - intros (j & d & Hs & Hj & Hd & Hfit).
    rewrite (proj2 (distance_regex_correct s j d)) by auto.
    destruct (Z.leb_spec (decimal_value j) INT_MAX); [eauto | lia].
Qed.

(** ** The languages of the plate and road parsers *)

(** X6: [parse_vehicle] succeeds exactly on the texts of the plate pattern,
    three to eleven letters and digits, and returns the text unchanged. *)
Theorem parse_vehicle_accepts (s : std_string) (v : vehicle_t) :
  parse_vehicle s = Some v <-> v = s /\ matches plate_pattern s.
Proof.
  unfold parse_vehicle. rewrite <- plate_regex_correct.
  destruct (plate_regex s); split.
  - intros [= <-]. auto.
  - intros [-> _]. reflexivity.
  - discriminate.
  - intros [_ Hfalse]. discriminate.
Qed.

(** X5: [parse_road] succeeds exactly on the texts of the road pattern, A
    or S followed by a number of one to three digits without leading
    zero. *)
Theorem parse_road_accepts (s : std_string) :
  (exists r, parse_road s = Some r) <-> matches road_pattern s.
Proof.
  rewrite road_pattern_correct. unfold parse_road. split.
  - intros (r & Hr). destruct (road_regex s) as [g|]; [eauto | discriminate].
  - intros ([g1 g2] & ->). eauto.
Qed.

(** ** Commands and records *)

(** X10: whitespace before the question mark, between it and the argument
    and after the argument does not change what [parse_command] returns;
    without argument that is the query for everything, with one it is the
    road and the vehicle the argument parses to, or failure when it parses
    to neither. *)
Theorem parse_command_whitespace (ws1 ws2 ws3 arg : std_string) :
  forallb isspace ws1 = true -> forallb isspace ws2 = true ->
  forallb isspace ws3 = true -> forallb nonspace arg = true ->
  parse_command (ws1 ++ "?" :: ws2 ++ arg ++ ws3)
  = parse_command ("?" :: arg)
  /\ parse_command ("?" :: arg)
     = match arg with
       | [] => Some (None, None)
       | _ :: _ =>
           match parse_road arg, parse_vehicle arg with
           | None, None => None
           | road, vehicle => Some (road, vehicle)
           end
       end.
Proof.
  intros H1 H2 H3 Ha.
  assert (command_regex (ws1 ++ "?" :: ws2 ++ arg ++ ws3) = Some arg) as E1.
  { apply command_regex_correct. exists ws1, ws2, ws3. auto. }
  assert (command_regex ("?" :: arg) = Some arg) as E2.
  { apply command_regex_correct. exists [], [], [].
    rewrite app_nil_r. auto. }
  unfold parse_command. rewrite E1, E2. split; [reflexivity|].
  destruct arg; [reflexivity|].
  destruct (parse_road _), (parse_vehicle _); reflexivity.
Qed.

Lemma parse_command_whitespace_witness :
  parse_command (lit "  " ++ "?" :: lit " " ++ lit "A12" ++ lit "   ")
  = parse_command ("?" :: lit "A12")
  /\ parse_command ("?" :: lit "A12")
     = match lit "A12" with
       | [] => Some (None, None)
       | _ :: _ =>
           match parse_road (lit "A12"), parse_vehicle (lit "A12") with
           | None, None => None
           | road, vehicle => Some (road, vehicle)
           end
       end.
Proof.
  apply (parse_command_whitespace (lit "  ") (lit " ") (lit "   ")
           (lit "A12")); reflexivity.
Defined.

(** X11: no line is both a command and a crossing record, so the order in
    which the loop tries the two changes nothing. *)
Theorem record_is_not_command (line : line_t) :
  parse_info line = None \/ parse_command line = None.
Proof.
  destruct (parse_info line) as [info|] eqn:Hi; [right | now left].
  exact (parse_info_not_command _ _ Hi).
Qed.

(** ** Words of a line *)

Lemma split_words_gap (sp rest : std_string) :
  forallb isspace sp = true ->
  split_words [] (sp ++ rest) = split_words [] rest.
Proof.
  induction sp as [|c sp IH]; simpl; [reflexivity|].
  rewrite andb_true_iff. intros [Hc Hsp]. rewrite Hc. auto.
Qed.

Lemma split_words_word (w acc rest : std_string) :
  forallb nonspace w = true ->
  split_words acc (w ++ rest) = split_words (rev w ++ acc) rest.
Proof.
  revert acc. induction w as [|c w IH]; intros acc; simpl; [reflexivity|].
  rewrite andb_true_iff. intros [Hc Hw]. unfold nonspace in Hc.
  destruct (isspace c); [discriminate|].
  rewrite (IH _ Hw). now rewrite <- app_assoc.
Qed.

Lemma split_words_end (acc sp : std_string) :
  acc <> [] -> forallb isspace sp = true ->
  split_words acc sp = [rev acc].
Proof.
  intros Hacc Hsp. destruct sp as [|c sp]; simpl.
  - destruct acc; [contradiction | reflexivity].
  - simpl in Hsp. apply andb_prop in Hsp. destruct Hsp as [Hc Hsp].
    rewrite Hc. destruct acc; [contradiction|].
    now rewrite (split_words_all_space _ Hsp).
Qed.

Lemma split_words_layout (w : std_string)
    (layout : list (std_string * std_string)) (trailing : std_string) :
  is_word w ->
  Forall (fun piece => is_gap (fst piece) /\ is_word (snd piece)) layout ->
  forallb isspace trailing = true ->
  split_words (rev w) (layout_text layout ++ trailing)
  = w :: map snd layout.
Proof.
  intros Hw Hall Htr. revert w Hw.
  induction Hall as [|[sp w'] layout [[Hne Hsp] Hw'] _ IH]; intros w Hw.
  - simpl. rewrite split_words_end, rev_involutive; auto.
    destruct Hw as [Hne _]. intros E. apply Hne.
    now rewrite <- (rev_involutive w), E.
  - unfold layout_text. simpl. simpl in Hne, Hsp.
    destruct sp as [|c sp]; [contradiction|]. simpl in Hsp.
    apply andb_prop in Hsp. destruct Hsp as [Hc Hsp].
    rewrite <- !app_assoc. simpl. rewrite Hc.
    destruct (rev w) eqn:Hrev.
    + destruct Hw as [Hne' _]. exfalso. apply Hne'.
      now rewrite <- (rev_involutive w), Hrev.
    + rewrite <- Hrev, rev_involutive. apply (f_equal (cons w)).
      rewrite (split_words_gap _ _ Hsp).
      rewrite (split_words_word _ _ _ (proj2 Hw')), app_nil_r.
      apply (IH w' Hw').
Qed.

(** X12: [split_args] returns the words of a line, in order, whatever
    whitespace stands before the first, between two of them and after the
    last. *)
Theorem split_args_layout (lead w : std_string)
    (layout : list (std_string * std_string)) (trailing : std_string) :
  forallb isspace lead = true ->
  is_word w ->
  Forall (fun piece => is_gap (fst piece) /\ is_word (snd piece)) layout ->
  forallb isspace trailing = true ->
  split_args (lead ++ w ++ layout_text layout ++ trailing)
  = w :: map snd layout.
Proof.
  intros Hlead Hw Hall Htr. unfold split_args.
  rewrite (split_words_gap _ _ Hlead).
  rewrite (split_words_word _ _ _ (proj2 Hw)), app_nil_r.
  now apply split_words_layout.
Qed.

Lemma split_args_layout_witness :
  split_args (lit " " ++ lit "ABC123"
              ++ layout_text [(lit "  ", lit "A1"); (lit " ", lit "10,0")]
              ++ lit " ")
  = lit "ABC123" :: map snd [(lit "  ", lit "A1"); (lit " ", lit "10,0")].
Proof.
  apply (split_args_layout (lit " ") (lit "ABC123")
           [(lit "  ", lit "A1"); (lit " ", lit "10,0")] (lit " ")).
  - reflexivity.
  - split; [discriminate | reflexivity].
  - repeat constructor; discriminate.
  - reflexivity.
Defined.

(** X14: a crossing record is read from its three words alone: whatever
    whitespace surrounds and separates them, [parse_info] returns what the
    plate, the road and the marker parse to, and fails when one of them
    does not parse. *)
Theorem parse_info_whitespace (sp0 a sp1 b sp2 c sp3 : std_string) :
  forallb isspace sp0 = true -> is_word a ->
  is_gap sp1 -> is_word b -> is_gap sp2 -> is_word c ->
  forallb isspace sp3 = true ->
  parse_info (sp0 ++ a ++ sp1 ++ b ++ sp2 ++ c ++ sp3)
  = match parse_vehicle a, parse_road b, parse_distance c with
    | Some vehicle, Some road, Some distance =>
        Some (vehicle, road, distance)
    | _, _, _ => None
    end.
Proof.
  intros H0 Ha H1 Hb H2 Hc H3. unfold parse_info.
  replace (sp0 ++ a ++ sp1 ++ b ++ sp2 ++ c ++ sp3)
    with (sp0 ++ a ++ layout_text [(sp1, b); (sp2, c)] ++ sp3)
    by (unfold layout_text; simpl; now rewrite app_nil_r, <- !app_assoc).
  unfold split_args. rewrite (split_words_gap _ _ H0).
  rewrite (split_words_word _ _ _ (proj2 Ha)), app_nil_r.
  rewrite split_words_layout; auto.
Qed.

Lemma parse_info_whitespace_witness :
  parse_info (lit "  " ++ lit "ABC123" ++ lit "   " ++ lit "A1" ++ lit " "
              ++ lit "10,0" ++ lit " ")
  = match parse_vehicle (lit "ABC123"), parse_road (lit "A1"),
          parse_distance (lit "10,0") with
    | Some vehicle, Some road, Some distance =>
        Some (vehicle, road, distance)
    | _, _, _ => None
    end.
Proof.
  apply (parse_info_whitespace (lit "  ") (lit "ABC123") (lit "   ")
           (lit "A1") (lit " ") (lit "10,0") (lit " "));
    try reflexivity; split; first [discriminate | reflexivity].
Defined.

Lemma forallb_rev_true (p : ascii -> bool) (l : std_string) :
  forallb p l = true -> forallb p (rev l) = true.
Proof.
  rewrite !forallb_forall. intros Hall x Hx. apply Hall.
  now apply in_rev.
Qed.

Lemma split_words_are_words (s word : std_string) :
  forallb nonspace word = true ->
  Forall is_word (split_words word s).
Proof.
  revert word. induction s as [|c s IH]; intros word Hword; simpl.
  - destruct word as [|x word]; constructor; [|constructor].
    split.
    + simpl. now destruct (rev word).
    + now apply forallb_rev_true.
  - destruct (isspace c) eqn:Hc.
    + destruct word as [|x word]; [now apply IH|].
      constructor; [|now apply IH]. split.
      * simpl. now destruct (rev word).
      * now apply forallb_rev_true.
    + apply IH. simpl. unfold nonspace at 1. now rewrite Hc.
Qed.

(** X13: every word [split_args] returns is non-empty and holds no
    whitespace. *)
Theorem split_args_words (s : std_string) :
  Forall (fun w => w <> [] /\ forallb nonspace w = true) (split_args s).
Proof.
  unfold split_args.
  apply (split_words_are_words s []). reflexivity.
Qed.

Section more_map_facts.
Context {K V : Type} `{KeyOrderLaws K}.
Implicit Types (k : K) (v : V) (m : std_map K V).

Lemma key_lt_irrefl k : ~ key_lt k k.
Proof. unfold key_lt. rewrite key_cmp_refl. discriminate. Qed.

Lemma map_sorted_NoDup m : map_sorted m -> NoDup (map_keys m).
Proof.
  unfold map_sorted. induction 1 as [|k ks Hs IH Hall]; constructor; auto.
  intros Hin. rewrite Forall_forall in Hall.
  exact (key_lt_irrefl k (Hall _ Hin)).
Qed.

Lemma map_find_below k m :
  Forall (key_lt k) (map_keys m) -> map_find k m = None.
Proof.
  destruct m as [|[k' v'] m]; simpl; [reflexivity|].
  intros Hall. inversion Hall as [|? ? Hlt _]; subst.
  unfold key_lt in Hlt. now rewrite Hlt.
Qed.

Lemma map_find_erase_other k k2 m :
  map_sorted m -> k2 <> k -> map_find k2 (map_erase k m) = map_find k2 m.
Proof.
  unfold map_sorted. intros Hs Hne.
  induction m as [|[k' v'] m IH]; simpl; [reflexivity|].
  simpl in Hs. apply StronglySorted_inv in Hs. destruct Hs as [Hs Hall].
  destruct (key_cmp k k') eqn:E; simpl.
  - apply key_cmp_eq in E. subst k'.
    destruct (key_cmp k2 k) eqn:E2.
    + apply key_cmp_eq in E2. contradiction.
    + apply map_find_below.
      eapply Forall_impl; [|exact Hall].
      intros a Ha. exact (key_cmp_trans _ _ _ E2 Ha).
    + reflexivity.
  - reflexivity.
  - destruct (key_cmp k2 k'); auto.
Qed.

Lemma map_set_nonempty k v m : map_set k v m <> [].
Proof.
  destruct m as [|[k' v'] m]; simpl; [discriminate|].
  destruct (key_cmp k k'); discriminate.
Qed.

Lemma map_erase_Forall (P : K * V -> Prop) k m :
  Forall P m -> Forall P (map_erase k m).
Proof.
  induction m as [|[k' v'] m IH]; simpl; intros Hm; auto.
  inversion Hm; subst. destruct (key_cmp k k'); auto.
Qed.
End more_map_facts.

(** ** More on [add_entry] *)

Lemma int_abs_sub_sym (a b : Z) :
  int_abs (int_sub a b) = int_abs (int_sub b a).
Proof.
  unfold int_abs, int_sub, wrap_int, INT_MIN.
  pose proof (Z.div_mod (a - b - -2147483648) (2 ^ 32) ltac:(lia)) as E1.
  pose proof (Z.div_mod (b - a - -2147483648) (2 ^ 32) ltac:(lia)) as E2.
  pose proof (Z.mod_pos_bound (a - b - -2147483648) (2 ^ 32) ltac:(lia)) as B1.
  pose proof (Z.mod_pos_bound (b - a - -2147483648) (2 ^ 32) ltac:(lia)) as B2.
  set (m1 := (a - b - -2147483648) mod 2 ^ 32) in *.
  set (m2 := (b - a - -2147483648) mod 2 ^ 32) in *.
  set (q1 := (a - b - -2147483648) / 2 ^ 32) in *.
  set (q2 := (b - a - -2147483648) / 2 ^ 32) in *.
  change (2 ^ 32) with 4294967296 in *.
  assert (Z.abs (m1 + -2147483648) = Z.abs (m2 + -2147483648)) as -> by lia.
  reflexivity.
Qed.

Lemma add_entry_error_pending (s : state_t) (v : vehicle_t) (r : road_t)
    (d : distance_t) (l : line_desc_t) (e : line_error_desc_t) :
  fst (add_entry s v r d l) = Some e ->
  exists r0 d0,
    map_find v (not_finished s) = Some (v, (r0, d0, e)) /\ r0 <> r.
Proof.
  destruct (map_find v (not_finished s)) as [[k [[r0 d0] l0]]|] eqn:Hfind.
  - pose proof (map_find_key _ _ _ Hfind) as Hk. simpl in Hk. subst k.
    destruct (road_eq_dec r0 r) as [-> | Hne].
    + rewrite (add_entry_same_road _ _ _ _ _ _ _ Hfind). discriminate.
    + rewrite (add_entry_other_road _ _ _ _ _ _ _ _ Hfind Hne).
      intros [= ->]. eauto.
  - rewrite (add_entry_fresh _ _ _ _ _ Hfind). discriminate.
Qed.

(** X15: [add_entry] returns a line exactly when the vehicle has a pending
    entry on another road, and the line is the one that entry came from. *)
Theorem add_entry_error (s : state_t) (v : vehicle_t) (r : road_t)
    (d : distance_t) (l : line_desc_t) (e : line_error_desc_t) :
  fst (add_entry s v r d l) = Some e
  <-> exists r0 d0,
        map_find v (not_finished s) = Some (v, (r0, d0, e)) /\ r0 <> r.
Proof.
  split.
  - apply add_entry_error_pending.
  - intros (r0 & d0 & Hfind & Hne).
    now rewrite (add_entry_other_road _ _ _ _ _ _ _ _ Hfind Hne).
Qed.

(** X16: in a ledger with sorted pending entries, [add_entry] for vehicle
    [v] on road [r] leaves alone the pending entry and the totals of every
    other vehicle, the total of every other road, and the totals of [v]
    for the other road type. *)
Theorem add_entry_frame (s : state_t) (v : vehicle_t) (r : road_t)
    (d : distance_t) (l : line_desc_t) :
  map_sorted (not_finished s) ->
  let s' := snd (add_entry s v r d l) in
  (forall v', v' <> v ->
     map_find v' (not_finished s') = map_find v' (not_finished s)
     /\ map_find v' (vehicles_data s') = map_find v' (vehicles_data s))
  /\ (forall r', r' <> r ->
        map_find r' (roads_data s') = map_find r' (roads_data s))
  /\ (forall t', t' <> snd r -> type_total s' v t' = type_total s v t').
Proof.
  intros Hs.
  destruct (map_find v (not_finished s)) as [[k [[r0 d0] l0]]|] eqn:Hfind.
  - pose proof (map_find_key _ _ _ Hfind) as Hk. simpl in Hk. subst k.
    destruct (road_eq_dec r0 r) as [-> | Hne].
    + rewrite (add_entry_same_road _ _ _ _ _ _ _ Hfind).
      cbn [snd not_finished vehicles_data roads_data].
      split; [|split].
      * intros v' Hv'. split.
        -- now apply map_find_erase_other.
        -- now apply map_find_set_other.
      * intros r' Hr'. unfold add_distance. now apply map_find_set_other.
      * intros t' Ht'. unfold type_total.
        cbn [vehicles_data]. rewrite map_get_set.
        unfold add_distance, map_get at 1.
        now rewrite (map_find_set_other _ _ _ _ Ht').
    + rewrite (add_entry_other_road _ _ _ _ _ _ _ _ Hfind Hne).
      cbn [snd not_finished vehicles_data roads_data].
      repeat split; auto. now apply map_find_set_other.
  - rewrite (add_entry_fresh _ _ _ _ _ Hfind).
    cbn [snd not_finished vehicles_data roads_data].
    repeat split; auto. now apply map_find_set_other.
Qed.

Lemma add_entry_frame_witness :
  let s := fst (run_lines traffic) in
  let s' := snd (add_entry s (lit "XYZ") (7, "A") 25 (8, lit "XYZ A7 2,5")) in
  (forall v', v' <> lit "XYZ" ->
     map_find v' (not_finished s') = map_find v' (not_finished s)
     /\ map_find v' (vehicles_data s') = map_find v' (vehicles_data s))
  /\ (forall r', r' <> (7, "A") ->
        map_find r' (roads_data s') = map_find r' (roads_data s))
  /\ (forall t', t' <> snd (7, "A") ->
        type_total s' (lit "XYZ") t' = type_total s (lit "XYZ") t').
Proof.
  apply (add_entry_frame (fst (run_lines traffic)) (lit "XYZ") (7, "A") 25
           (8, lit "XYZ A7 2,5")).
  apply run_lines_sorted.
Defined.

(** X17: the two markers of a segment may come in either order: recording
    [d1] and then [d2] leaves the same ledger as recording [d2] and then
    [d1]. *)
Theorem add_entry_direction (s : state_t) (v : vehicle_t) (r : road_t)
    (d1 d2 : distance_t) (l1 l2 l1' l2' : line_desc_t) :
  map_find v (not_finished s) = None ->
  snd (add_entry (snd (add_entry s v r d1 l1)) v r d2 l2)
  = snd (add_entry (snd (add_entry s v r d2 l1')) v r d1 l2').
Proof.
  intros Hfresh.
  rewrite !(add_entry_fresh _ _ _ _ _ Hfresh). cbn [snd].
  rewrite (add_entry_same_road _ v r d1 l1) by (simpl; apply map_find_set).
  rewrite (add_entry_same_road _ v r d2 l1') by (simpl; apply map_find_set).
  cbn [snd vehicles_data roads_data not_finished].
  rewrite !(map_erase_set _ _ _ Hfresh).
  now rewrite (int_abs_sub_sym d2 d1).
Qed.

Lemma add_entry_direction_witness :
  snd (add_entry
         (snd (add_entry empty_state (lit "ABC") (1, "A") 100
                 (1, lit "ABC A1 10,0")))
         (lit "ABC") (1, "A") 25 (2, lit "ABC A1 2,5"))
  = snd (add_entry
           (snd (add_entry empty_state (lit "ABC") (1, "A") 25
                   (1, lit "ABC A1 2,5")))
           (lit "ABC") (1, "A") 100 (2, lit "ABC A1 10,0")).
Proof.
  apply (add_entry_direction empty_state (lit "ABC") (1, "A") 100 25).
  reflexivity.
Defined.

(** X18: closing a segment leaves the road with an entry in the road
    totals and the vehicle with an entry for the road type, also when the
    distance travelled is zero; the reports list them from then on. *)
Theorem add_entry_registers (s : state_t) (v : vehicle_t) (r : road_t)
    (d0 d : distance_t) (l0 l : line_desc_t) :
  map_find v (not_finished s) = Some (v, (r, d0, l0)) ->
  let s' := snd (add_entry s v r d l) in
  (exists total, map_find r (roads_data s') = Some (r, total))
  /\ (exists by_type total,
        map_find v (vehicles_data s') = Some (v, by_type)
        /\ map_find (snd r) by_type = Some (snd r, total)).
Proof.
  intros Hfind. rewrite (add_entry_same_road _ _ _ _ _ _ _ Hfind).
  cbn [snd vehicles_data roads_data]. unfold add_distance. split.
  - eexists. apply map_find_set.
  - eexists. eexists. split; apply map_find_set.
Qed.

Lemma add_entry_registers_witness :
  let s := fst (run_lines [lit "ABC A1 10,0"]) in
  let s' := snd (add_entry s (lit "ABC") (1, "A") 100 (2, lit "ABC A1 10,0")) in
  (exists total, map_find (1, "A") (roads_data s') = Some ((1, "A"), total))
  /\ (exists by_type total,
        map_find (lit "ABC") (vehicles_data s') = Some (lit "ABC", by_type)
        /\ map_find (snd (1, "A")) by_type = Some (snd (1, "A"), total)).
Proof.
  apply (add_entry_registers (fst (run_lines [lit "ABC A1 10,0"]))
           (lit "ABC") (1, "A") 100 100 (1, lit "ABC A1 10,0")).
  reflexivity.
Defined.

(** ** Invariants of a run *)

Lemma handle_line_step (n : line_no_t) (l : line_t) (s s1 : state_t)
    (u : unit) (w1 : written) :
  handle_line (n, l) s = (u, s1, w1) ->
  (s1 = s
   /\ (cerr w1 = [] \/ (cout w1 = [] /\ cerr w1 = [error_text (n, l)])))
  \/ exists v r d,
       parse_info l = Some (v, r, d)
       /\ s1 = snd (add_entry s v r d (n, l))
       /\ cout w1 = []
       /\ cerr w1 = found_line error_text (fst (add_entry s v r d (n, l))).
Proof.
  destruct l as [|c l].
  { intros [= <- <- <-]. left. split; [reflexivity | now left]. }
  destruct (parse_command (c :: l)) as [[cr cv]|] eqn:Hc.
  - rewrite (handle_line_command _ _ _ _ _ Hc).
    rewrite (handle_command_run _ _ _ _ _ Hc).
    intros [= <- <- <-]. left. simpl. auto.
  - destruct (parse_info (c :: l)) as [[[v r] d]|] eqn:Hi.
    + rewrite (handle_line_info _ _ _ _ _ _ Hi). intros [= <- <- <-].
      right. exists v, r, d. simpl. auto.
    + rewrite handle_line_malformed by (auto; discriminate).
      intros [= <- <- <-]. left. simpl. auto.
Qed.

Lemma parse_info_valid (l : line_t) (v : vehicle_t) (r : road_t)
    (d : distance_t) :
  parse_info l = Some (v, r, d) ->
  matches plate_pattern v /\ road_valid r.
Proof.
  unfold parse_info.
  destruct (split_args l) as [|a0 [|a1 [|a2 [|? ?]]]]; try discriminate.
  destruct (parse_vehicle a0) as [v0|] eqn:Hv; [|discriminate].
  destruct (parse_road a1) as [r0|] eqn:Hr; [|discriminate].
  destruct (parse_distance a2); [|discriminate].
  intros [= <- <- <-]. split.
  - unfold parse_vehicle in Hv.
    destruct (plate_regex a0) eqn:Hp; [|discriminate].
    injection Hv as <-. now apply plate_regex_correct.
  - exact (parse_road_valid _ _ Hr).
Qed.

Lemma run_invariant (P : state_t -> Prop) :
  P empty_state ->
  (forall s v r d n l,
     P s -> parse_info l = Some (v, r, d) ->
     P (snd (add_entry s v r d (n, l)))) ->
  forall lines, P (fst (run_lines lines)).
Proof.
  intros Hinit Hstep lines. unfold run_lines.
  assert (forall n s, P s -> P (snd (fst (handle_lines n lines s)))) as Hall.
  { induction lines as [|l lines IH]; intros n s Hs; [exact Hs|].
    cbn [handle_lines]. unfold bind.
    destruct (handle_line (int_add n 1, l) s) as [[u s1] w1] eqn:Hl.
    apply handle_line_step in Hl.
    assert (P s1) as Hs1.
    { destruct Hl as [[-> _] | (v & r & d & Hi & -> & _)]; eauto. }
    specialize (IH (int_add n 1) s1 Hs1).
    now destruct (handle_lines (int_add n 1) lines s1) as [[u2 s2] w2]. }
  specialize (Hall 0 empty_state Hinit).
  now destruct (handle_lines 0 lines empty_state) as [[u s] w].
Qed.

Lemma by_type_valid (v : vehicle_t) (s : state_t) :
  ledger_valid s ->
  Forall (fun t => t = "A" \/ t = "S")
    (map fst (map_get [] v (vehicles_data s))).
Proof.
  intros (Hv & _). unfold map_get.
  destruct (map_find _ _) as [[k inner]|] eqn:Hfind; [|constructor].
  apply map_find_In in Hfind. rewrite Forall_forall in Hv.
  apply (Hv _ Hfind).
Qed.

Lemma add_entry_valid (s : state_t) (v : vehicle_t) (r : road_t)
    (d : distance_t) (l : line_desc_t) :
  ledger_valid s -> matches plate_pattern v -> road_valid r ->
  ledger_valid (snd (add_entry s v r d l)).
Proof.
  intros Hs Hplate Hroad. pose proof (by_type_valid v s Hs) as Hby.
  destruct Hs as (Hv & Hr & Hn). unfold add_entry, ledger_valid.
  destruct (map_find _ _) as [[k [[r0 d0] l0]]|];
    [destruct (road_eq_dec r0 r)|];
    cbn [snd vehicles_data roads_data not_finished].
  - split; [|split].
    + apply map_set_values_Forall; [|exact Hv]. cbn [fst snd].
      split; [exact Hplate|]. split; [apply map_set_nonempty|].
      apply (map_set_keys_Forall (fun t => t = "A" \/ t = "S"));
        [apply Hroad | exact Hby].
    + now apply (map_set_keys_Forall road_valid).
    + now apply map_erase_Forall.
  - repeat split; auto. now apply map_set_values_Forall.
  - repeat split; auto. now apply map_set_values_Forall.
Qed.

(** X19: whatever the input, the ledger only ever holds plates of the
    plate pattern and roads with a number from 1 to 999 and the type A or
    S, and every vehicle with totals has a total for at least one road
    type, A or S. *)
Theorem run_ledger_valid (lines : list line_t) :
  ledger_valid (fst (run_lines lines)).
Proof.
  apply run_invariant.
  - repeat split; constructor.
  - intros s v r d n l Hs Hi. apply parse_info_valid in Hi.
    destruct Hi. now apply add_entry_valid.
Qed.

(** X20: whatever the input, no vehicle has two pending entries. *)
Theorem run_pending_unique (lines : list line_t) :
  NoDup (map fst (not_finished (fst (run_lines lines)))).
Proof.
  destruct (run_lines_sorted lines) as (_ & _ & _ & Hn).
  now apply map_sorted_NoDup.
Qed.

(** ** What a run writes *)

(** X21: one line writes to one stream at most: either nothing goes to the
    error stream, or nothing goes to the output and the error stream gets
    exactly one diagnostic. *)
Theorem handle_line_one_stream (ld : line_desc_t) (s : state_t) :
  let w := snd (handle_line ld s) in
  cerr w = [] \/ (cout w = [] /\ exists e, cerr w = [error_text e]).
Proof.
  destruct ld as [n l].
  destruct (handle_line (n, l) s) as [[u s1] w1] eqn:Hl. cbn [snd].
  apply handle_line_step in Hl.
  destruct Hl as [[_ [H | [H1 H2]]] | (v & r & d & _ & _ & H1 & H2)].
  - now left.
  - right. eauto.
  - destruct (fst (add_entry _ _ _ _ _)) as [e|]; simpl in H2.
    + right. eauto.
    + now left.
Qed.

Lemma handle_lines_cons (n : line_no_t) (l : line_t) (rest : list line_t)
    (s : state_t) :
  handle_lines n (l :: rest) s =
  let '(_, s1, w1) := handle_line (int_add n 1, l) s in
  let '(u, s2, w2) := handle_lines (int_add n 1) rest s1 in
  (u, s2, written_app w1 w2).
Proof. reflexivity. Qed.

Lemma handle_lines_cerr_bound (lines : list line_t) (n : line_no_t)
    (s : state_t) :
  (length (cerr (snd (handle_lines n lines s))) <= length lines)%nat.
Proof.
  revert n s. induction lines as [|l lines IH]; intros n s; [simpl; lia|].
  rewrite handle_lines_cons.
  destruct (handle_line (int_add n 1, l) s) as [[u s1] w1] eqn:Hl.
  apply handle_line_step in Hl.
  specialize (IH (int_add n 1) s1).
  destruct (handle_lines (int_add n 1) lines s1) as [[u2 s2] w2].
  cbn [snd written_app cerr] in *. rewrite length_app.
  change (length (l :: lines)) with (S (length lines)).
  assert (length (cerr w1) <= 1)%nat; [|lia].
  destruct Hl as [[_ [-> | [_ ->]]] | (v & r & d & _ & _ & _ & ->)];
    simpl; try lia.
  destruct (fst (add_entry _ _ _ _ _)); simpl; lia.
Qed.

(** X22: a run writes no more diagnostics than it reads lines. *)
Theorem run_diagnostics_bound (lines : list line_t) :
  (length (cerr (snd (run_lines lines))) <= length lines)%nat.
Proof.
  unfold run_lines.
  pose proof (handle_lines_cerr_bound lines 0 empty_state) as H.
  now destruct (handle_lines 0 lines empty_state) as [[u s] w].
Qed.

Lemma handle_lines_no_command (lines : list line_t) (n : line_no_t)
    (s : state_t) :
  Forall (fun l => parse_command l = None) lines ->
  cout (snd (handle_lines n lines s)) = [].
Proof.
  intros Hall. revert n s.
  induction Hall as [|l lines Hl _ IH]; intros n s; [reflexivity|].
  rewrite handle_lines_cons.
  destruct (handle_line (int_add n 1, l) s) as [[u s1] w1] eqn:Hstep.
  assert (cout w1 = []) as Hout.
  { destruct l as [|c l]; [now injection Hstep as <- <- <-|].
    destruct (parse_info (c :: l)) as [[[v r] d]|] eqn:Hi.
    - rewrite (handle_line_info _ _ _ _ _ _ Hi) in Hstep.
      now injection Hstep as <- <- <-.
    - rewrite handle_line_malformed in Hstep by (auto; discriminate).
      now injection Hstep as <- <- <-. }
  specialize (IH (int_add n 1) s1).
  destruct (handle_lines (int_add n 1) lines s1) as [[u2 s2] w2].
  cbn [snd written_app cout] in *. now rewrite Hout, IH.
Qed.

(** X23: only command lines write to the output: an input without a
    command line leaves it empty. *)
Theorem run_without_commands_is_silent (lines : list line_t) :
  Forall (fun l => parse_command l = None) lines ->
  cout (snd (run_lines lines)) = [].
Proof.
  intros Hall. unfold run_lines.
  pose proof (handle_lines_no_command lines 0 empty_state Hall) as H.
  now destruct (handle_lines 0 lines empty_state) as [[u s] w].
Qed.

Lemma run_without_commands_is_silent_witness :
  cout (snd (run_lines traffic)) = [].
Proof.
  apply (run_without_commands_is_silent traffic).
  repeat constructor.
Defined.

(** ** Line numbers *)

Lemma line_no_after_app (n : line_no_t) (l1 l2 : list line_t) :
  line_no_after n (l1 ++ l2) = line_no_after (line_no_after n l1) l2.
Proof. unfold line_no_after. apply fold_left_app. Qed.

Lemma line_no_after_count (lines : list line_t) :
  Z.of_nat (length lines) <= INT_MAX ->
  line_no_after 0 lines = Z.of_nat (length lines).
Proof.
  induction lines as [|l lines IH] using rev_ind; [reflexivity|].
  rewrite line_no_after_app, length_app. simpl length. intros Hlen.
  rewrite IH by lia. cbn [line_no_after fold_left]. unfold int_add.
  rewrite wrap_int_small by (unfold in_int, INT_MIN, INT_MAX in *; lia).
  lia.
Qed.

(** X24: lines are numbered from 1 and every line counts, blank ones and
    commands included: a malformed line that follows [k] lines, with [k]
    below [INT_MAX], is reported as line [k + 1] and changes nothing
    else. *)
Theorem malformed_line_number (pre : list line_t) (l : line_t) :
  Z.of_nat (length pre) < INT_MAX ->
  l <> [] -> parse_command l = None -> parse_info l = None ->
  run_lines (pre ++ [l])
  = (fst (run_lines pre),
     written_app (snd (run_lines pre))
       (mk_written []
          [lit "Error in line " ++ show_int (Z.of_nat (length pre) + 1)
           ++ lit ": " ++ l])).
Proof.
  intros Hlen Hne Hc Hi. rewrite run_lines_app.
  destruct (run_lines pre) as [s0 w0].
  rewrite handle_lines_cons, (handle_line_malformed _ _ _ Hne Hc Hi).
  rewrite line_no_after_count by lia.
  unfold int_add. rewrite wrap_int_small
    by (unfold in_int, INT_MIN, INT_MAX in *; lia).
  cbn. reflexivity.
Qed.

Lemma malformed_line_number_witness :
  run_lines ([lit "? A1"; []; lit "ABC A1 1,0"] ++ [lit "hello world"])
  = (fst (run_lines [lit "? A1"; []; lit "ABC A1 1,0"]),
     written_app (snd (run_lines [lit "? A1"; []; lit "ABC A1 1,0"]))
       (mk_written []
          [lit "Error in line "
           ++ show_int
                (Z.of_nat (length [lit "? A1"; []; lit "ABC A1 1,0"]) + 1)
           ++ lit ": " ++ lit "hello world"])).
Proof.
  apply (malformed_line_number [lit "? A1"; []; lit "ABC A1 1,0"]
           (lit "hello world")).
  - vm_compute. reflexivity.
  - discriminate.
  - reflexivity.
  - reflexivity.
Defined.

(** ** Diagnostics quote the input *)

Lemma line_ref_app (pre : list line_t) (l : line_t) (ref : line_desc_t) :
  line_ref pre ref -> line_ref (pre ++ [l]) ref.
Proof.
  intros (k & Hk & Hn). exists k.
  assert (k < length pre)%nat as Hlt
    by (apply nth_error_Some; congruence).
  split.
  - now rewrite nth_error_app1.
  - rewrite Hn. f_equal. rewrite firstn_app.
    replace (S k - length pre)%nat with 0%nat by lia.
    simpl. now rewrite app_nil_r.
Qed.

Lemma line_ref_last (pre : list line_t) (l : line_t) :
  line_ref (pre ++ [l]) (int_add (line_no_after 0 pre) 1, l).
Proof.
  exists (length pre). cbn [fst snd]. split.
  - rewrite nth_error_app2 by lia. now rewrite Nat.sub_diag.
  - rewrite firstn_all2 by (rewrite length_app; simpl; lia).
    now rewrite line_no_after_app.
Qed.

Lemma add_entry_refs (P : line_desc_t -> Prop) (s : state_t) (v : vehicle_t)
    (r : road_t) (d : distance_t) (l : line_desc_t) :
  Forall (fun entry => P (snd (snd entry))) (not_finished s) ->
  P l ->
  Forall (fun entry => P (snd (snd entry)))
    (not_finished (snd (add_entry s v r d l)))
  /\ forall e, fst (add_entry s v r d l) = Some e -> P e.
Proof.
  intros Hall Hl. split.
  - unfold add_entry.
    destruct (map_find _ _) as [[k [[r0 d0] l0]]|];
      [destruct (road_eq_dec r0 r)|]; cbn [snd not_finished].
    + now apply map_erase_Forall.
    + now apply map_set_values_Forall.
    + now apply map_set_values_Forall.
  - intros e He. apply add_entry_error_pending in He.
    destruct He as (r0 & d0 & Hfind & _). apply map_find_In in Hfind.
    rewrite Forall_forall in Hall. exact (Hall _ Hfind).
Qed.

(** X25: every diagnostic of a run quotes a line of the input, together
    with the number the loop gave that line. *)
Theorem diagnostics_quote_input (lines : list line_t) :
  Forall (fun text => exists ref, line_ref lines ref /\ text = error_text ref)
    (cerr (snd (run_lines lines))).
Proof.
  assert (Forall (fun entry => line_ref lines (snd (snd entry)))
            (not_finished (fst (run_lines lines)))
          /\ Forall (fun text =>
                       exists ref, line_ref lines ref /\ text = error_text ref)
               (cerr (snd (run_lines lines)))) as [_ H]; [|exact H].
  induction lines as [|l pre IH] using rev_ind.
  - split; constructor.
  - rewrite run_lines_app. destruct (run_lines pre) as [s0 w0].
    cbn [fst snd] in IH. destruct IH as [Hpend Herr].
    rewrite handle_lines_cons.
    destruct (handle_line (int_add (line_no_after 0 pre) 1, l) s0)
      as [[u s1] w1] eqn:Hl.
    apply handle_line_step in Hl. cbn [handle_lines ret fst snd].
    rewrite written_app_nothing_r. cbn [written_app cerr].
    assert (Forall (fun entry => line_ref (pre ++ [l]) (snd (snd entry)))
              (not_finished s0)) as Hpend'.
    { eapply Forall_impl; [|exact Hpend]. intros e. apply line_ref_app. }
    assert (Forall (fun text => exists ref,
                      line_ref (pre ++ [l]) ref /\ text = error_text ref)
              (cerr w0)) as Herr'.
    { eapply Forall_impl; [|exact Herr].
      intros t (ref & Href & ->). eauto using line_ref_app. }
    pose proof (line_ref_last pre l) as Hlast.
    destruct Hl as [[-> [-> | [_ ->]]] | (v & r & d & _ & -> & _ & ->)].
    + rewrite app_nil_r. auto.
    + split; [exact Hpend'|]. apply Forall_app. split; [exact Herr'|].
      repeat constructor. eauto.
    + destruct (add_entry_refs _ s0 v r d _ Hpend' Hlast) as [Hnew Hold].
      split; [exact Hnew|]. apply Forall_app. split; [exact Herr'|].
      destruct (fst (add_entry _ _ _ _ _)) as [e|]; simpl; [|constructor].
      repeat constructor. eauto.
Qed.

(** ** Reading lines *)

Lemma getlines_line (l acc rest : std_string) :
  no_newline l ->
  getlines acc (l ++ "010" :: rest) = (rev acc ++ l) :: getlines [] rest.
Proof.
  unfold no_newline. revert acc.
  induction l as [|c l IH]; intros acc Hl; simpl in *.
  - destruct (ascii_dec "010" "010"); [|contradiction].
    now rewrite app_nil_r.
  - destruct (ascii_dec c "010"); [discriminate|].
    rewrite (IH _ Hl). simpl. now rewrite <- app_assoc.
Qed.

Lemma getlines_last (l acc : std_string) :
  no_newline l -> rev acc ++ l <> [] -> getlines acc l = [rev acc ++ l].
Proof.
  unfold no_newline. revert acc.
  induction l as [|c l IH]; intros acc Hl Hne; simpl in *.
  - rewrite app_nil_r in *. destruct acc; [contradiction | reflexivity].
  - destruct (ascii_dec c "010"); [discriminate|].
    rewrite IH.
    + simpl. now rewrite <- app_assoc.
    + exact Hl.
    + simpl. rewrite <- app_assoc. simpl. now destruct (rev acc).
Qed.

Lemma getlines_unlines_last (lines : list line_t) (l : line_t) :
  Forall no_newline lines -> no_newline l ->
  getlines [] (unlines lines ++ l)
  = lines ++ match l with [] => [] | _ :: _ => [l] end.
Proof.
  unfold unlines. intros Hlines Hl.
  induction Hlines as [|l0 lines Hl0 _ IH]; simpl.
  - destruct l as [|c l]; [reflexivity|].
    apply (getlines_last (c :: l) []); [exact Hl | discriminate].
  - rewrite <- !app_assoc. simpl.
    rewrite (getlines_line _ _ _ Hl0). simpl. now rewrite IH.
Qed.

Lemma unlines_app (a b : list line_t) : unlines (a ++ b) = unlines a ++ unlines b.
Proof. unfold unlines. now rewrite map_app, concat_app. Qed.

Lemma getlines_unlines (lines : list line_t) :
  Forall no_newline lines -> getlines [] (unlines lines) = lines.
Proof.
  intros Hlines.
  pose proof (getlines_unlines_last lines [] Hlines) as E.
  rewrite !app_nil_r in E. now apply E.
Qed.

(** X26: on a text made of lines that each end in a newline, the program
    handles exactly those lines, in order. *)
Theorem handle_all_unlines (lines : list line_t) :
  Forall no_newline lines ->
  handle_all (unlines lines) = snd (run_lines lines).
Proof.
  intros Hlines. rewrite handle_all_run_lines.
  now rewrite (getlines_unlines _ Hlines).
Qed.

Lemma handle_all_unlines_witness :
  handle_all (unlines traffic) = snd (run_lines traffic).
Proof.
  apply (handle_all_unlines traffic). repeat constructor.
Defined.

(** X27: a last line that is not empty is handled the same whether or not
    a newline ends it. *)
Theorem handle_all_last_newline (lines : list line_t) (l : line_t) :
  Forall no_newline lines -> no_newline l -> l <> [] ->
  handle_all (unlines lines ++ l) = handle_all (unlines (lines ++ [l])).
Proof.
  intros Hlines Hl Hne. unfold handle_all.
  rewrite (getlines_unlines_last _ _ Hlines Hl).
  pose proof (getlines_unlines_last (lines ++ [l]) []) as E.
  rewrite !app_nil_r in E. rewrite E.
  - destruct l; [contradiction | reflexivity].
  - apply Forall_app. split; [exact Hlines | now constructor].
  - reflexivity.
Qed.

Lemma handle_all_last_newline_witness :
  handle_all (unlines traffic ++ lit "?")
  = handle_all (unlines (traffic ++ [lit "?"])).
Proof.
  apply (handle_all_last_newline traffic (lit "?")).
  - repeat constructor.
  - reflexivity.
  - discriminate.
Defined.

(** ** Line numbers and blank lines leave the totals alone *)

Section map_values_facts.
Context {K V W : Type} `{KeyOrderLaws K} (f : V -> W).
Implicit Types (k : K) (m : std_map K V).

Lemma map_find_values k m :
  map_find k (map_values f m)
  = option_map (fun entry => (fst entry, f (snd entry))) (map_find k m).
Proof.
  induction m as [|[k' v'] m IH]; simpl; [reflexivity|].
  destruct (key_cmp k k'); auto.
Qed.

Lemma map_set_values k v m :
  map_values f (map_set k v m) = map_set k (f v) (map_values f m).
Proof.
  induction m as [|[k' v'] m IH]; simpl; [reflexivity|].
  destruct (key_cmp k k'); simpl; auto. now rewrite <- IH.
Qed.

Lemma map_erase_values k m :
  map_values f (map_erase k m) = map_erase k (map_values f m).
Proof.
  induction m as [|[k' v'] m IH]; simpl; [reflexivity|].
  destruct (key_cmp k k'); simpl; auto. now rewrite <- IH.
Qed.
End map_values_facts.

Lemma add_entry_same_ledger (s s' : state_t) (v : vehicle_t) (r : road_t)
    (d : distance_t) (l l' : line_desc_t) :
  same_ledger s s' ->
  same_ledger (snd (add_entry s v r d l)) (snd (add_entry s' v r d l')).
Proof.
  intros (Hv & Hr & Hp). unfold pending_roads in Hp.
  assert (option_map (fun e => (fst e, fst (snd e)))
            (map_find v (not_finished s))
          = option_map (fun e => (fst e, fst (snd e)))
              (map_find v (not_finished s'))) as Hfind.
  { rewrite <- !map_find_values. apply (f_equal (map_find v) Hp). }
  unfold same_ledger, pending_roads.
  destruct (map_find v (not_finished s)) as [[k [[r0 d0] l0]]|] eqn:E1;
    destruct (map_find v (not_finished s')) as [[k' [[r0' d0'] l0']]|] eqn:E2;
    simpl in Hfind; try discriminate.
  - injection Hfind as -> -> ->.
    pose proof (map_find_key _ _ _ E2) as Hk. simpl in Hk. subst k'.
    destruct (road_eq_dec r0' r) as [-> | Hne].
    + rewrite (add_entry_same_road _ _ _ _ _ _ _ E1),
        (add_entry_same_road _ _ _ _ _ _ _ E2).
      cbn [snd vehicles_data roads_data not_finished].
      rewrite Hv, Hr, !map_erase_values, Hp. repeat split.
    + rewrite (add_entry_other_road _ _ _ _ _ _ _ _ E1 Hne),
        (add_entry_other_road _ _ _ _ _ _ _ _ E2 Hne).
      cbn [snd vehicles_data roads_data not_finished].
      rewrite !map_set_values, Hp. repeat split; auto.
  - rewrite (add_entry_fresh _ _ _ _ _ E1), (add_entry_fresh _ _ _ _ _ E2).
    cbn [snd vehicles_data roads_data not_finished].
    rewrite !map_set_values, Hp. repeat split; auto.
Qed.

Lemma handle_line_same_ledger (n n' : line_no_t) (l : line_t)
    (s s' s1 s1' : state_t) (u u' : unit) (w1 w1' : written) :
  same_ledger s s' ->
  handle_line (n, l) s = (u, s1, w1) ->
  handle_line (n', l) s' = (u', s1', w1') ->
  same_ledger s1 s1' /\ cout w1 = cout w1'.
Proof.
  intros Hs. destruct l as [|c l].
  { intros [= <- <- <-] [= <- <- <-]. now split. }
  destruct (parse_command (c :: l)) as [[cr cv]|] eqn:Hc.
  - rewrite !(handle_line_command _ _ _ _ _ Hc).
    rewrite !(handle_command_run _ _ _ _ _ Hc). cbn [fst snd].
    intros [= <- <- <-] [= <- <- <-].
    split; [exact Hs|]. destruct Hs as (Hv & Hr & _).
    unfold dump. cbn [written_app cout nothing]. now rewrite Hv, Hr.
  - destruct (parse_info (c :: l)) as [[[v r] d]|] eqn:Hi.
    + rewrite !(handle_line_info _ _ _ _ _ _ Hi).
      intros [= <- <- <-] [= <- <- <-]. cbn [cout].
      split; [|reflexivity]. now apply add_entry_same_ledger.
    + rewrite !handle_line_malformed by (auto; discriminate).
      intros [= <- <- <-] [= <- <- <-]. now split.
Qed.

Lemma handle_lines_skip_blank (lines : list line_t) (n n' : line_no_t)
    (s s' : state_t) :
  same_ledger s s' ->
  same_ledger (snd (fst (handle_lines n lines s)))
    (snd (fst (handle_lines n'
                 (filter (fun l => negb (is_blank l)) lines) s')))
  /\ cout (snd (handle_lines n lines s))
     = cout (snd (handle_lines n'
                    (filter (fun l => negb (is_blank l)) lines) s')).
Proof.
  revert n n' s s'. induction lines as [|l lines IH]; intros n n' s s' Hs.
  - now split.
  - destruct l as [|c l]; cbn [filter is_blank negb].
    + rewrite handle_lines_cons. cbn [handle_line snd ret].
      specialize (IH (int_add n 1) n' s s' Hs).
      destruct (handle_lines (int_add n 1) lines s) as [[u2 s2] w2].
      exact IH.
    + rewrite !handle_lines_cons.
      destruct (handle_line _ s) as [[u1 s1] w1] eqn:E1.
      destruct (handle_line _ s') as [[u1' s1'] w1'] eqn:E2.
      destruct (handle_line_same_ledger _ _ _ _ _ _ _ _ _ _ _ Hs E1 E2)
        as [Hs1 Hout].
      specialize (IH (int_add n 1) (int_add n' 1) s1 s1' Hs1).
      destruct (handle_lines (int_add n 1) lines s1) as [[u2 s2] w2].
      destruct (handle_lines (int_add n' 1) _ s1') as [[u2' s2'] w2'].
      cbn [fst snd written_app cout] in *. destruct IH as [IH1 IH2].
      split; [exact IH1|]. now rewrite Hout, IH2.
Qed.

(** X28: empty lines change nothing but line numbers: without them the
    run writes the same output and ends with the same totals and the same
    pending roads and markers. *)
Theorem blank_lines_change_no_totals (lines : list line_t) :
  let (s, w) := run_lines lines in
  let (s', w') := run_lines (filter (fun l => negb (is_blank l)) lines) in
  cout w = cout w'
  /\ vehicles_data s = vehicles_data s'
  /\ roads_data s = roads_data s'
  /\ pending_roads s = pending_roads s'.
Proof.
  unfold run_lines.
  pose proof (handle_lines_skip_blank lines 0 0 empty_state empty_state)
    as [Hs Hout]; [repeat split|].
  destruct (handle_lines 0 lines empty_state) as [[u s] w].
  destruct (handle_lines 0 _ empty_state) as [[u' s'] w'].
  cbn [fst snd] in *. destruct Hs as (Hv & Hr & Hp). auto.
Qed.

(** X29: the number the loop starts from only shows in diagnostics: from
    any two starting numbers the same lines write the same output and
    leave the same totals and the same pending roads and markers. *)
Theorem line_numbers_change_no_totals (lines : list line_t)
    (n n' : line_no_t) (s : state_t) :
  let '(_, s1, w1) := handle_lines n lines s in
  let '(_, s1', w1') := handle_lines n' lines s in
  cout w1 = cout w1'
  /\ vehicles_data s1 = vehicles_data s1'
  /\ roads_data s1 = roads_data s1'
  /\ pending_roads s1 = pending_roads s1'.
Proof.
  assert (forall n n' s s', same_ledger s s' ->
            same_ledger (snd (fst (handle_lines n lines s)))
              (snd (fst (handle_lines n' lines s')))
            /\ cout (snd (handle_lines n lines s))
               = cout (snd (handle_lines n' lines s'))) as Hgen.
  { clear n n' s. induction lines as [|l lines IH]; intros n n' s s' Hs.
    - now split.
    - rewrite !handle_lines_cons.
      destruct (handle_line (int_add n 1, l) s) as [[u1 s1] w1] eqn:E1.
      destruct (handle_line (int_add n' 1, l) s') as [[u1' s1'] w1'] eqn:E2.
      destruct (handle_line_same_ledger _ _ _ _ _ _ _ _ _ _ _ Hs E1 E2)
        as [Hs1 Hout].
      specialize (IH (int_add n 1) (int_add n' 1) s1 s1' Hs1).
      destruct (handle_lines (int_add n 1) lines s1) as [[u2 s2] w2].
      destruct (handle_lines (int_add n' 1) lines s1') as [[u2' s2'] w2'].
      cbn [fst snd written_app cout] in *. destruct IH as [IH1 IH2].
      split; [exact IH1|]. now rewrite Hout, IH2. }
  specialize (Hgen n n' s s ltac:(repeat split)).
  destruct (handle_lines n lines s) as [[u1 s1] w1].
  destruct (handle_lines n' lines s) as [[u1' s1'] w1'].
  cbn [fst snd] in Hgen. destruct Hgen as [(Hv & Hr & Hp) Hout]. auto.
Qed.

(** * Reports, and the end of the input *)

(** ** Presence in a sorted map *)

Section presence.
Context {K V : Type} `{KeyOrderLaws K}.
Implicit Types (k : K) (v : V) (m : std_map K V).

Lemma map_find_present k v m :
  map_sorted m -> In (k, v) m -> map_find k m = Some (k, v).
Proof.
  unfold map_sorted. induction m as [|[k' v'] m IH]; simpl; [contradiction|].
  intros Hs. apply StronglySorted_inv in Hs. destruct Hs as [Hs Hall].
  intros [[= -> ->] | Hin].
  - now rewrite key_cmp_refl.
  - assert (key_lt k' k) as Hlt.
    { rewrite Forall_forall in Hall. apply Hall.
      change k with (fst (k, v)). now apply in_map. }
    unfold key_lt in Hlt.
    rewrite (key_cmp_antisym k' k), Hlt. simpl. now apply IH.
Qed.

Lemma map_find_absent k m :
  ~ In k (map_keys m) -> map_find k m = None.
Proof.
  induction m as [|[k' v'] m IH]; simpl; [reflexivity|].
  intros Hnot. destruct (key_cmp k k') eqn:E.
  - apply key_cmp_eq in E. subst k'. exfalso. apply Hnot. now left.
  - reflexivity.
  - apply IH. intros Hin. apply Hnot. now right.
Qed.
End presence.

(** ** The text of the report lines *)

Lemma show_entries_text (entries : road_type_data_t) :
  show_entries (lit " ") entries
  = concat
      (map (fun e => lit " " ++ fst e :: lit " "
                     ++ show_int (Z.quot (snd e) 10) ++ lit ","
                     ++ show_int (Z.rem (snd e) 10))
         entries).
Proof.
  induction entries as [|e entries IH]; [reflexivity|].
  cbn [show_entries map concat]. rewrite IH. unfold show_distance.
  cbn [app]. repeat (rewrite <- app_assoc; cbn [app]). reflexivity.
Qed.

Lemma vehicle_line_text (entry : vehicle_t * road_type_data_t) :
  vehicle_line entry
  = fst entry ++ lit " "
    ++ match snd entry with
       | [] => []
       | e :: rest =>
           (fst e :: lit " " ++ show_int (Z.quot (snd e) 10) ++ lit ","
            ++ show_int (Z.rem (snd e) 10))
           ++ concat
                (map (fun e' => lit " " ++ fst e' :: lit " "
                                ++ show_int (Z.quot (snd e') 10) ++ lit ","
                                ++ show_int (Z.rem (snd e') 10))
                   rest)
       end.
Proof.
  unfold vehicle_line, show_vehicle, show_road_type_data.
  destruct (snd entry) as [|e rest]; [reflexivity|].
  cbn [show_entries]. rewrite show_entries_text. unfold show_distance.
  cbn [app]. repeat (rewrite <- app_assoc; cbn [app]). reflexivity.
Qed.

Lemma road_line_text (entry : road_t * distance_t) :
  road_line entry
  = snd (fst entry) :: show_int (fst (fst entry)) ++ lit " "
    ++ show_int (Z.quot (snd entry) 10) ++ lit ","
    ++ show_int (Z.rem (snd entry) 10).
Proof.
  unfold road_line, show_road, show_distance. cbn [app].
  repeat (rewrite <- app_assoc; cbn [app]). reflexivity.
Qed.

(** ** The report of everything *)

(** C3: in whatever state the ledger is after the lines read so far, the
    query without argument prints, and prints nothing else: one line for
    each vehicle in [RoadTypeTotals], plates ascending, made of the plate
    and then, for each of its road types in ascending order of the letter,
    a space, the letter, a space and the total as [D,d]; and then one line
    for each road in [RoadTotals], ordered by number and, for equal
    numbers, by type letter, made of the letter, the number, a space and
    the total as [D,d].  So S3 comes before A12 and A12 before S12. *)
Theorem query_all_report (lines : list line_t) (n : line_no_t) (q : line_t) :
  parse_command q = Some (None, None) ->
  let s := fst (run_lines lines) in
  let distance_text := fun d : distance_t =>
    show_int (Z.quot d 10) ++ lit "," ++ show_int (Z.rem d 10) in
  let total_text := fun e : road_type_t * distance_t =>
    fst e :: lit " " ++ distance_text (snd e) in
  let vehicle_text := fun entry : vehicle_t * road_type_data_t =>
    fst entry ++ lit " "
    ++ match snd entry with
       | [] => []
       | e :: rest =>
           total_text e ++ concat (map (fun e' => lit " " ++ total_text e') rest)
       end in
  let road_text := fun entry : road_t * distance_t =>
    snd (fst entry) :: show_int (fst (fst entry)) ++ lit " "
    ++ distance_text (snd entry) in
  handle_command (n, q) s =
    (true, s,
     mk_written
       (map vehicle_text (vehicles_data s) ++ map road_text (roads_data s))
       [])
  /\ StronglySorted plate_before (map fst (vehicles_data s))
  /\ Forall (fun entry => StronglySorted type_before (map fst (snd entry)))
       (vehicles_data s)
  /\ StronglySorted road_before (map fst (roads_data s))
  /\ road_before (3, "S") (12, "A")
  /\ road_before (12, "A") (12, "S").
Proof.
  intros Hq s distance_text total_text vehicle_text road_text.
  destruct (run_lines_sorted lines) as (Hv & Hin & Hr & _).
  fold s in Hv, Hin, Hr.
  split; [|split; [|split; [|split; [|split]]]].
  - rewrite (handle_command_run _ _ _ _ _ Hq). unfold dump.
    rewrite !app_nil_r.
    rewrite (map_ext _ _ vehicle_line_text), (map_ext _ _ road_line_text).
    reflexivity.
  - eapply StronglySorted_weaken; [|exact Hv].
    intros a b. apply string_cmp_lt.
  - eapply Forall_impl; [|exact Hin]. intros [k inner] Hs.
    eapply StronglySorted_weaken; [|exact Hs]. apply type_order_spec.
  - eapply StronglySorted_weaken; [|exact Hr].
    intros a b. apply road_cmp_lt.
  - left. simpl. lia.
  - right. split; [reflexivity|]. unfold type_before. vm_compute. reflexivity.
Qed.

(** C3 at a concrete input: the report after [traffic]. *)
Lemma query_all_report_witness :
  parse_command (lit "?") = Some (None, None)
  /\ handle_command (8, lit "?") (fst (run_lines traffic))
     = (true, fst (run_lines traffic),
        mk_written
          (map lit
             ["A12 A 2,3"; "ABC S 1,5"; "S3 1,0"; "A12 2,3"; "S12 0,5"]%string)
          []).
Proof.
  split; [reflexivity|].
  exact (proj1 (query_all_report traffic 8 (lit "?") eq_refl)).
Defined.

(** ** A query for a road that is also a plate *)

(** C8: when the argument of a command line matches the road pattern and
    the plate pattern at once, it is parsed as a road and as a vehicle,
    and the command prints, and prints nothing else, first the line of
    the vehicle (the plate and its totals per road type, as in the
    report of everything) when [RoadTypeTotals] has an entry for that
    plate and nothing when it has none, and then the line of the road
    (letter, number, space, total as [D,d]) when [RoadTotals] has an
    entry for that road and nothing when it has none. *)
Theorem query_road_and_plate (lines : list line_t) (n : line_no_t)
    (line : line_t) (arg : std_string) :
  command_regex line = Some arg ->
  matches road_pattern arg ->
  matches plate_pattern arg ->
  let s := fst (run_lines lines) in
  let distance_text := fun d : distance_t =>
    show_int (Z.quot d 10) ++ lit "," ++ show_int (Z.rem d 10) in
  let total_text := fun e : road_type_t * distance_t =>
    fst e :: lit " " ++ distance_text (snd e) in
  let totals_text := fun totals : road_type_data_t =>
    match totals with
    | [] => []
    | e :: rest =>
        total_text e ++ concat (map (fun e' => lit " " ++ total_text e') rest)
    end in
  exists (road : road_t) (vehicle_part road_part : list std_string),
    parse_road arg = Some road
    /\ parse_vehicle arg = Some arg
    /\ handle_command (n, line) s
       = (true, s, mk_written (vehicle_part ++ road_part) [])
    /\ (forall totals, In (arg, totals) (vehicles_data s) ->
          vehicle_part = [arg ++ lit " " ++ totals_text totals])
    /\ (~ In arg (map fst (vehicles_data s)) -> vehicle_part = [])
    /\ (forall total, In (road, total) (roads_data s) ->
          road_part = [snd road :: show_int (fst road) ++ lit " "
                       ++ distance_text total])
    /\ (~ In road (map fst (roads_data s)) -> road_part = []).
Proof.
  intros Hline Hroad Hplate s distance_text total_text totals_text.
  apply road_pattern_correct in Hroad. destruct Hroad as ([g1 g2] & Hroad).
  apply plate_regex_correct in Hplate.
  assert (parse_road arg = Some (stoul g2, hd "000" g1)) as Hr
    by (unfold parse_road; now rewrite Hroad).
  assert (parse_vehicle arg = Some arg) as Hv
    by (unfold parse_vehicle; now rewrite Hplate).
  destruct (run_lines_sorted lines) as (Hsv & _ & Hsr & _).
  fold s in Hsv, Hsr.
  set (road := (stoul g2, hd "000" g1)) in *.
  exists road,
    (found_line vehicle_line (map_find arg (vehicles_data s))),
    (found_line road_line (map_find road (roads_data s))).
  split; [exact Hr|]. split; [exact Hv|]. split; [|split; [|split; [|split]]].
  - now rewrite (handle_command_run _ _ _ _ _
                   (parse_command_both _ _ _ _ Hline Hr Hv)).
  - intros totals Hin.
    replace (map_find arg (vehicles_data s)) with (Some (arg, totals))
      by (symmetry; apply (map_find_present _ _ _ Hsv Hin)).
    cbn [found_line]. now rewrite vehicle_line_text.
  - intros Hnot.
    replace (map_find arg (vehicles_data s))
      with (@None (vehicle_t * road_type_data_t))
      by (symmetry; apply (map_find_absent _ _ Hnot)).
    reflexivity.
  - intros total Hin.
    replace (map_find road (roads_data s)) with (Some (road, total))
      by (symmetry; apply (map_find_present _ _ _ Hsr Hin)).
    cbn [found_line]. now rewrite road_line_text.
  - intros Hnot.
    replace (map_find road (roads_data s))
      with (@None (road_t * distance_t))
      by (symmetry; apply (map_find_absent _ _ Hnot)).
    reflexivity.
Qed.

(** C8 at a concrete input: [A12] is a road and a plate, and after
    [traffic] both have totals. *)
Lemma query_road_and_plate_witness :
  In (lit "A12", [("A", 23)]) (vehicles_data (fst (run_lines traffic)))
  /\ In ((12, "A"), 23) (roads_data (fst (run_lines traffic)))
  /\ handle_command (8, lit "? A12") (fst (run_lines traffic))
     = (true, fst (run_lines traffic),
        mk_written [lit "A12 A 2,3"; lit "A12 2,3"] []).
Proof.
  assert (In (lit "A12", [("A", 23)])
            (vehicles_data (fst (run_lines traffic)))) as Hvehicle
    by (vm_compute; auto).
  assert (In ((12, "A"), 23) (roads_data (fst (run_lines traffic)))) as Hroad
    by (vm_compute; auto).
  split; [exact Hvehicle|]. split; [exact Hroad|].
  destruct (query_road_and_plate traffic 8 (lit "? A12") (lit "A12"))
    as (road & vehicle_part & road_part & Hr & _ & Hout & Hv1 & _ & Hr1 & _).
  - reflexivity.
  - apply road_pattern_correct. eexists. reflexivity.
  - apply plate_regex_correct. reflexivity.
  - injection Hr as <-.
    rewrite (Hv1 _ Hvehicle), (Hr1 _ Hroad) in Hout. exact Hout.
Defined.

(** ** An entry that stays pending to the end of the input *)

Lemma add_entry_differs_at (v : vehicle_t) (entry : not_finished_entry_t)
    (a b : state_t) (v' : vehicle_t) (r' : road_t) (d' : distance_t)
    (l' : line_desc_t) :
  pending_differs_at v entry a b -> v' <> v ->
  fst (add_entry a v' r' d' l') = fst (add_entry b v' r' d' l')
  /\ pending_differs_at v entry (snd (add_entry a v' r' d' l'))
       (snd (add_entry b v' r' d' l')).
Proof.
  intros (Hvd & Hrd & Hsa & Hsb & Hfa & Hoth) Hne.
  assert (v <> v') as Hne' by congruence.
  pose proof (Hoth v' Hne) as Hsame.
  assert (forall x : not_finished_entry_t,
            pending_differs_at v entry
              (mk_state (vehicles_data a) (roads_data a)
                 (map_set v' x (not_finished a)))
              (mk_state (vehicles_data b) (roads_data b)
                 (map_set v' x (not_finished b)))) as Hset.
  { intros x. unfold pending_differs_at.
    cbn [vehicles_data roads_data not_finished].
    split; [exact Hvd|]. split; [exact Hrd|].
    split; [now apply map_set_sorted|]. split; [now apply map_set_sorted|].
    split; [now rewrite (map_find_set_other _ _ _ _ Hne')|].
    intros v'' Hv''.
    destruct (list_eq_dec ascii_dec v'' v') as [-> | Hdiff].
    - now rewrite !map_find_set.
    - rewrite !(map_find_set_other _ _ _ _ Hdiff). now apply Hoth. }
  destruct (map_find v' (not_finished b)) as [[k [[r0 d0] l0]]|] eqn:Eb.
  - pose proof (map_find_key _ _ _ Eb) as Hk. simpl in Hk. subst k.
    destruct (road_eq_dec r0 r') as [-> | Hroad].
    + rewrite (add_entry_same_road _ _ _ _ _ _ _ Hsame),
        (add_entry_same_road _ _ _ _ _ _ _ Eb).
      split; [reflexivity|]. unfold pending_differs_at.
      cbn [snd vehicles_data roads_data not_finished].
      split; [now rewrite Hvd|]. split; [now rewrite Hrd|].
      split; [now apply map_erase_sorted|].
      split; [now apply map_erase_sorted|].
      split; [now rewrite (map_find_erase_other _ _ _ Hsa Hne')|].
      intros v'' Hv''.
      destruct (list_eq_dec ascii_dec v'' v') as [-> | Hdiff].
      * now rewrite !map_find_erase.
      * rewrite (map_find_erase_other _ _ _ Hsa Hdiff),
          (map_find_erase_other _ _ _ Hsb Hdiff).
        now apply Hoth.
    + rewrite (add_entry_other_road _ _ _ _ _ _ _ _ Hsame Hroad),
        (add_entry_other_road _ _ _ _ _ _ _ _ Eb Hroad).
      split; [reflexivity | apply Hset].
  - rewrite (add_entry_fresh _ _ _ _ _ Hsame), (add_entry_fresh _ _ _ _ _ Eb).
    split; [reflexivity | apply Hset].
Qed.

Lemma handle_line_differs_at (v : vehicle_t) (entry : not_finished_entry_t)
    (n : line_no_t) (l : line_t) (a b a' b' : state_t) (u u' : unit)
    (wa wb : written) :
  pending_differs_at v entry a b ->
  (forall r' d', parse_info l <> Some (v, r', d')) ->
  handle_line (n, l) a = (u, a', wa) ->
  handle_line (n, l) b = (u', b', wb) ->
  wa = wb /\ pending_differs_at v entry a' b'.
Proof.
  intros Hrel Hnot. destruct l as [|c l].
  { intros [= <- <- <-] [= <- <- <-]. now split. }
  destruct (parse_command (c :: l)) as [[cr cv]|] eqn:Hc.
  - rewrite !(handle_line_command _ _ _ _ _ Hc).
    rewrite !(handle_command_run _ _ _ _ _ Hc). cbn [snd].
    intros [= <- <- <-] [= <- <- <-]. split; [|exact Hrel].
    destruct Hrel as (Hvd & Hrd & _). unfold dump. now rewrite Hvd, Hrd.
  - destruct (parse_info (c :: l)) as [[[v' r'] d']|] eqn:Hi.
    + assert (v' <> v) as Hne by (intros ->; exact (Hnot r' d' eq_refl)).
      rewrite !(handle_line_info _ _ _ _ _ _ Hi).
      intros [= <- <- <-] [= <- <- <-].
      destruct (add_entry_differs_at v entry a b v' r' d' (n, c :: l) Hrel Hne)
        as [Herr Hnext].
      split; [|exact Hnext].
      exact (f_equal (fun e => mk_written [] (found_line error_text e)) Herr).
    + rewrite !handle_line_malformed by (auto; discriminate).
      intros [= <- <- <-] [= <- <- <-]. now split.
Qed.

Lemma handle_lines_differs_at (v : vehicle_t) (entry : not_finished_entry_t)
    (lines : list line_t) (n : line_no_t) (a b a' b' : state_t)
    (u u' : unit) (wa wb : written) :
  pending_differs_at v entry a b ->
  Forall (fun l => forall r' d', parse_info l <> Some (v, r', d')) lines ->
  handle_lines n lines a = (u, a', wa) ->
  handle_lines n lines b = (u', b', wb) ->
  wa = wb /\ pending_differs_at v entry a' b'.
Proof.
  intros Hrel Hall. revert n a b a' b' u u' wa wb Hrel.
  induction Hall as [|l lines Hl _ IH]; intros n a b a' b' u u' wa wb Hrel.
  - intros [= <- <- <-] [= <- <- <-]. now split.
  - rewrite !handle_lines_cons.
    destruct (handle_line _ a) as [[u1 a1] wa1] eqn:Ea.
    destruct (handle_line _ b) as [[u2 b1] wb1] eqn:Eb.
    destruct (handle_line_differs_at _ _ _ _ _ _ _ _ _ _ _ _ Hrel Hl Ea Eb)
      as [-> Hrel1].
    destruct (handle_lines (int_add n 1) lines a1) as [[u3 a2] wa2] eqn:Ea2.
    destruct (handle_lines (int_add n 1) lines b1) as [[u4 b2] wb2] eqn:Eb2.
    destruct (IH _ _ _ _ _ _ _ _ _ Hrel1 Ea2 Eb2) as [-> Hrel2].
    intros [= <- <- <-] [= <- <- <-]. now split.
Qed.

(** C6: a record that opens a pending entry, for a vehicle that has none
    or has one on another road, and that no later line of the input
    matches or replaces, leaves the entry pending when the input ends, and
    the program does nothing about it.  What [handle_all] writes is what
    the lines wrote while they were handled, with nothing added at the end
    of the input.  Against the input in which the line of that record is
    emptied, the output is the same, the totals come to the same, and the
    error stream is the same but for the diagnostic of the entry the
    record superseded, if there was one, written when the record was
    read. *)
Theorem pending_at_end_discarded (cin cin' : std_string)
    (pre post : list line_t) (l : line_t) (v : vehicle_t) (r : road_t)
    (d : distance_t) :
  getlines [] cin = pre ++ l :: post ->
  getlines [] cin' = pre ++ [] :: post ->
  parse_info l = Some (v, r, d) ->
  (forall d0 l0,
     map_find v (not_finished (fst (run_lines pre)))
     <> Some (v, (r, d0, l0))) ->
  Forall (fun l' => forall r' d', parse_info l' <> Some (v, r', d')) post ->
  let (s0, w0) := run_lines pre in
  let (s, w) := run_lines (pre ++ l :: post) in
  let (s', w') := run_lines (pre ++ [] :: post) in
  let superseded :=
    match map_find v (not_finished s0) with
    | Some (_, (_, _, l0)) =>
        [lit "Error in line " ++ show_int (fst l0) ++ lit ": " ++ snd l0]
    | None => []
    end in
  map_find v (not_finished s)
  = Some (v, (r, d, (int_add (line_no_after 0 pre) 1, l)))
  /\ handle_all cin = w
  /\ handle_all cin' = w'
  /\ cout w = cout w'
  /\ (exists later,
        cerr w = cerr w0 ++ superseded ++ later
        /\ cerr w' = cerr w0 ++ later)
  /\ vehicles_data s = vehicles_data s'
  /\ roads_data s = roads_data s'.
Proof.
  intros Hcin Hcin' Hi Hopen Hpost.
  rewrite !handle_all_run_lines, Hcin, Hcin'.
  rewrite !run_lines_app.
  pose proof (run_lines_sorted pre) as (_ & _ & _ & Hsorted).
  destruct (run_lines pre) as [s0 w0]. cbn [fst] in Hopen, Hsorted.
  rewrite !handle_lines_cons.
  rewrite (handle_line_info _ _ _ _ _ _ Hi), handle_line_blank.
  set (n := int_add (line_no_after 0 pre) 1).
  set (entry := (r, d, (n, l)) : not_finished_entry_t).
  set (s1 := mk_state (vehicles_data s0) (roads_data s0)
               (map_set v entry (not_finished s0))).
  assert (add_entry s0 v r d (n, l)
          = (match map_find v (not_finished s0) with
             | Some (_, (_, _, l0)) => Some l0
             | None => None
             end, s1)) as Hstep.
  { destruct (map_find v (not_finished s0)) as [[k [[r0 d0] l0]]|] eqn:Hfind.
    - pose proof (map_find_key _ _ _ Hfind) as Hk. simpl in Hk. subst k.
      apply (add_entry_other_road _ _ r0 d0); [exact Hfind|].
      intros ->. exact (Hopen d0 l0 eq_refl).
    - now apply add_entry_fresh. }
  match goal with
  | |- context [handle_lines _ _ (snd ?x)] =>
      replace x with
        (match map_find v (not_finished s0) with
         | Some (_, (_, _, l0)) => Some l0
         | None => None
         end, s1) by (symmetry; exact Hstep)
  end.
  cbn [fst snd].
  assert (pending_differs_at v entry s1 s0) as Hrel.
  { unfold pending_differs_at, s1.
    cbn [vehicles_data roads_data not_finished].
    repeat split; auto.
    - now apply map_set_sorted.
    - apply map_find_set.
    - intros v' Hv'. now apply map_find_set_other. }
  destruct (handle_lines _ _ s1) as [[u a'] wa] eqn:Ea.
  destruct (handle_lines _ _ s0) as [[u' b'] wb] eqn:Eb.
  destruct (handle_lines_differs_at v entry _ _ s1 s0 _ _ _ _ _ _
              Hrel Hpost Ea Eb)
    as [-> (Hvd & Hrd & _ & _ & Hfind & _)].
  cbn [snd written_app cout cerr nothing app].
  split; [exact Hfind|]. split; [reflexivity|]. split; [reflexivity|].
  split; [reflexivity|]. split; [|now split].
  exists (cerr wb). split; [|reflexivity].
  destruct (map_find v (not_finished s0)) as [[k [[r0 d0] l0]]|];
    reflexivity.
Qed.

(** C6 at a concrete input: the second line opens an entry for XYZ that
    nothing closes; the program writes what it writes without that line. *)
Lemma pending_at_end_discarded_witness :
  handle_all
    (unlines
       (map lit ["ABC S3 7,0"; "XYZ A7 0,0"; "ABC S3 8,0"; "hello"; "?"]%string))
  = mk_written [lit "ABC S 1,0"; lit "S3 1,0"] [lit "Error in line 4: hello"]
  /\ cerr
       (handle_all
          (unlines
             (map lit
                ["ABC S3 7,0"; "XYZ A7 0,0"; "ABC S3 8,0"; "hello";
                 "?"]%string)))
     = cerr
         (handle_all
            (unlines
               (map lit
                  ["ABC S3 7,0"; ""; "ABC S3 8,0"; "hello"; "?"]%string))).
Proof.
  split; [vm_compute; reflexivity|].
  pose proof (pending_at_end_discarded
                (unlines
                   (map lit ["ABC S3 7,0"; "XYZ A7 0,0"; "ABC S3 8,0";
                             "hello"; "?"]%string))
                (unlines
                   (map lit ["ABC S3 7,0"; ""; "ABC S3 8,0"; "hello";
                             "?"]%string))
                [lit "ABC S3 7,0"]
                (map lit ["ABC S3 8,0"; "hello"; "?"]%string)
                (lit "XYZ A7 0,0") (lit "XYZ") (7, "A") 0
                eq_refl eq_refl eq_refl) as H.
  assert (forall d0 l0,
            map_find (lit "XYZ")
              (not_finished (fst (run_lines [lit "ABC S3 7,0"])))
            <> Some (lit "XYZ", ((7, "A"), d0, l0))) as Hopen
    by (intros d0 l0; vm_compute; discriminate).
  assert (Forall (fun l' => forall r' d',
                    parse_info l' <> Some (lit "XYZ", r', d'))
            (map lit ["ABC S3 8,0"; "hello"; "?"]%string)) as Hpost
    by (repeat constructor; intros r' d'; vm_compute; discriminate).
  specialize (H Hopen Hpost).
  assert (map_find (lit "XYZ")
            (not_finished (fst (run_lines [lit "ABC S3 7,0"]))) = None)
    as Hnone by reflexivity.
  destruct (run_lines [lit "ABC S3 7,0"]) as [s0 w0].
  destruct (run_lines _) as [s w] in H.
  destruct (run_lines _) as [s' w'] in H.
  cbn [fst] in Hnone. cbn zeta in H.
  match type of H with
  | context [match ?m with Some _ => _ | None => _ end] =>
      replace m with (@None (vehicle_t * not_finished_entry_t)) in H
        by (symmetry; exact Hnone)
  end.
  destruct H as (_ & -> & -> & _ & (later & -> & ->) & _). reflexivity.
Defined.
